(** * CAN signal codec: a shallow embedding of [can_signal_parser.c]

    The C translation unit [examples/can_protocol/can_signal_parser.c] packs
    and unpacks bit fields of an 8-byte CAN payload, converts raw fields to
    physical values and validates message headers.  This development embeds
    those functions in Rocq and proves properties about them.

    Conventions of the embedding:
    - [uint8_t], [uint16_t], [uint64_t] values are [Z] with the wrap-around of
      every narrowing assignment written out ([u8], [u16], [u64]);
    - [data[8]] is a [list Z]; indexing past its end is undefined behaviour
      in C and is the outcome [Undefined] here, as is a shift of a 64-bit
      operand by 64 or more;
    - [float] is IEEE-754 binary32 ([spec_float] with precision 24 and
      maximal exponent 128); every operation is rounded to nearest even in
      that format, one operation at a time;
    - arguments of type [uint16_t], [uint8_t] and [uint64_t] are [Z] values;
      the statements give their ranges where the result depends on them. *)

From Stdlib Require Import ZArith Lia Bool.
From Stdlib Require Import Floats.SpecFloat.
From stdpp Require Import base list.

Local Open Scope Z_scope.

(** ** Outcomes of a C call *)

Inductive outcome (A : Type) : Type :=
| Returns (a : A)
| Undefined.
Arguments Returns {A} a.
Arguments Undefined {A}.

Definition bind {A B} (m : outcome A) (k : A -> outcome B) : outcome B :=
  match m with
  | Returns a => k a
  | Undefined => Undefined
  end.

Notation "'let*' x ':=' m 'in' k" := (bind m (fun x => k))
  (at level 10, x name, m at level 100, k at level 200).

(** ** Fixed-width integers *)

Definition u8 (z : Z) : Z := z mod 2 ^ 8.
Definition u16 (z : Z) : Z := z mod 2 ^ 16.
Definition u64 (z : Z) : Z := z mod 2 ^ 64.

(** [(int64_t) z] for [z] a [uint64_t]. *)
Definition i64 (z : Z) : Z := if u64 z <? 2 ^ 63 then u64 z else u64 z - 2 ^ 64.

(** [x << n] on [unsigned long long]: undefined unless [0 <= n < 64]. *)
Definition shl64 (x n : Z) : outcome Z :=
  if (0 <=? n) && (n <? 64) then Returns (u64 (Z.shiftl x n)) else Undefined.

(** [x >> n] on [uint64_t]: undefined unless [0 <= n < 64]. *)
Definition shr64 (x n : Z) : outcome Z :=
  if (0 <=? n) && (n <? 64) then Returns (Z.shiftr x n) else Undefined.

(** ** Data model *)

Module Msg.
Record Can_Message_t : Type := {
  id : Z;               (* uint32_t *)
  dlc : Z;              (* uint8_t  *)
  data : list Z;        (* uint8_t [8] *)
  extended_id : bool;
  rtr : bool
}.
End Msg.
Abbreviation Can_Message_t := Msg.Can_Message_t.

Module Sig.
Record Can_Signal_t : Type := {
  start_bit : Z;        (* uint16_t *)
  length : Z;           (* uint8_t  *)
  factor : spec_float;
  offset : spec_float;
  min_value : spec_float;
  max_value : spec_float
}.
End Sig.
Abbreviation Can_Signal_t := Sig.Can_Signal_t.

(** A message as the C type has it: eight payload bytes. *)
Definition wf_msg (msg : Can_Message_t) : Prop :=
  List.length (Msg.data msg) = 8%nat.

Definition with_data (msg : Can_Message_t) (d : list Z) : Can_Message_t :=
  {| Msg.id := Msg.id msg; Msg.dlc := Msg.dlc msg; Msg.data := d;
     Msg.extended_id := Msg.extended_id msg; Msg.rtr := Msg.rtr msg |}.

(** [msg->data[byte_idx]] as an rvalue. *)
Definition read_data (d : list Z) (byte_idx : Z) : outcome Z :=
  match d !! Z.to_nat byte_idx with
  | Some b => Returns b
  | None => Undefined
  end.

(** [msg->data[byte_idx] = f (msg->data[byte_idx])], the store narrowed to
    [uint8_t]. *)
Definition modify_data (d : list Z) (byte_idx : Z) (f : Z -> Z)
  : outcome (list Z) :=
  let* b := read_data d byte_idx in
  Returns (<[Z.to_nat byte_idx := u8 (f b)]> d).

(** [for (uint8_t i = i0; i < i0 + n; i++) s = body i s]. *)
Fixpoint for_loop {S : Type} (n : nat) (i : Z) (body : Z -> S -> outcome S)
  (s : S) : outcome S :=
  match n with
  | O => Returns s
  | Datatypes.S n' => let* s' := body i s in for_loop n' (i + 1) body s'
  end.

(** ** Bit codec *)

(** One iteration of the Motorola loop of [Can_ExtractSignal]. *)
Definition extract_motorola_body (d : list Z) (start_bit length i raw_value : Z)
  : outcome Z :=
  let bit_pos := u16 (start_bit - i) in
  let byte_idx := u8 (bit_pos / 8) in
  let bit_idx := u8 (7 - bit_pos mod 8) in
  let* b := read_data d byte_idx in
  if Z.land (Z.shiftr b bit_idx) 1 =? 0 then Returns raw_value
  else let* m := shl64 1 (length - 1 - i) in Returns (Z.lor raw_value m).

(** One iteration of the Intel loop of [Can_ExtractSignal]. *)
Definition extract_intel_body (d : list Z) (start_bit i raw_value : Z)
  : outcome Z :=
  let bit_pos := u16 (start_bit + i) in
  let byte_idx := u8 (bit_pos / 8) in
  let bit_idx := u8 (bit_pos mod 8) in
  let* b := read_data d byte_idx in
  if Z.land (Z.shiftr b bit_idx) 1 =? 0 then Returns raw_value
  else let* m := shl64 1 i in Returns (Z.lor raw_value m).

Definition Can_ExtractSignal (msg : Can_Message_t) (start_bit length : Z)
  (motorola : bool) : outcome Z :=
  let raw_value := 0 in
  if motorola then
    for_loop (Z.to_nat length) 0
      (extract_motorola_body (Msg.data msg) start_bit length) raw_value
  else
    for_loop (Z.to_nat length) 0
      (extract_intel_body (Msg.data msg) start_bit) raw_value.

(** One iteration of the Motorola loop of [Can_InsertSignal]. *)
Definition insert_motorola_body (start_bit length value i : Z) (d : list Z)
  : outcome (list Z) :=
  let bit_pos := u16 (start_bit - i) in
  let byte_idx := u8 (bit_pos / 8) in
  let bit_idx := u8 (7 - bit_pos mod 8) in
  let* v := shr64 value (length - 1 - i) in
  if Z.land v 1 =? 0
  then modify_data d byte_idx (fun b => Z.land b (Z.lnot (Z.shiftl 1 bit_idx)))
  else modify_data d byte_idx (fun b => Z.lor b (Z.shiftl 1 bit_idx)).

(** One iteration of the Intel loop of [Can_InsertSignal]. *)
Definition insert_intel_body (start_bit value i : Z) (d : list Z)
  : outcome (list Z) :=
  let bit_pos := u16 (start_bit + i) in
  let byte_idx := u8 (bit_pos / 8) in
  let bit_idx := u8 (bit_pos mod 8) in
  let* v := shr64 value i in
  if Z.land v 1 =? 0
  then modify_data d byte_idx (fun b => Z.land b (Z.lnot (Z.shiftl 1 bit_idx)))
  else modify_data d byte_idx (fun b => Z.lor b (Z.shiftl 1 bit_idx)).

Definition Can_InsertSignal (msg : Can_Message_t) (start_bit length value : Z)
  (motorola : bool) : outcome Can_Message_t :=
  let* d :=
    if motorola then
      for_loop (Z.to_nat length) 0
        (insert_motorola_body start_bit length value) (Msg.data msg)
    else
      for_loop (Z.to_nat length) 0
        (insert_intel_body start_bit value) (Msg.data msg)
  in Returns (with_data msg d).

Definition zero_payload : list Z := [0; 0; 0; 0; 0; 0; 0; 0].

Definition zero_msg : Can_Message_t :=
  {| Msg.id := 0; Msg.dlc := 0; Msg.data := zero_payload;
     Msg.extended_id := false; Msg.rtr := false |}.

(** ** Physical conversion *)

(** [float] operations: binary32, round to nearest even. *)
Definition f32_of_Z (z : Z) : spec_float := binary_normalize 24 128 z 0 false.
Definition f32_mul : spec_float -> spec_float -> spec_float := SFmul 24 128.
Definition f32_add : spec_float -> spec_float -> spec_float := SFadd 24 128.
Definition f32_div : spec_float -> spec_float -> spec_float := SFdiv 24 128.
Definition f32_lt : spec_float -> spec_float -> bool := SFltb.
Definition f32_gt (x y : spec_float) : bool := SFltb y x.
Definition f32_le : spec_float -> spec_float -> bool := SFleb.

(** [(uint64_t) f]: the fractional part is discarded; undefined when the
    integral part is not a [uint64_t] value. *)
Definition f32_to_u64 (f : spec_float) : outcome Z :=
  match f with
  | S754_zero _ => Returns 0
  | S754_finite s m e =>
      let t := if 0 <=? e then Z.pos m * 2 ^ e else Z.pos m / 2 ^ (- e) in
      if s then (if t =? 0 then Returns 0 else Undefined)
      else if t <? 2 ^ 64 then Returns t else Undefined
  | _ => Undefined
  end.

(** The literals of the source. *)
Definition f32_0_0 : spec_float := S754_zero false.
Definition f32_0_01 : spec_float := S754_finite false 10737418 (-30).
Definition f32_0_25 : spec_float := S754_finite false 8388608 (-25).
Definition f32_300_0 : spec_float := S754_finite false 9830400 (-15).

(** The [is_signed] branch of [Can_SignalToPhysical] up to the cast to
    [float]: the value of [signed_value]. *)
Definition sign_extend (raw_value length : Z) : outcome Z :=
  let signed_value := i64 raw_value in
  let* sign := shl64 1 (length - 1) in
  if Z.land raw_value sign =? 0 then Returns signed_value
  else
    let* ext := shl64 (2 ^ 64 - 1) length in
    Returns (i64 (Z.lor (u64 signed_value) ext)).

(** The range check at the end of [Can_SignalToPhysical]. *)
Definition range_check (signal : Can_Signal_t) (physical_value : spec_float)
  : spec_float :=
  if f32_lt physical_value (Sig.min_value signal) then Sig.min_value signal
  else if f32_gt physical_value (Sig.max_value signal) then Sig.max_value signal
  else physical_value.

Definition Can_SignalToPhysical (raw_value : Z) (signal : Can_Signal_t)
  (is_signed : bool) : outcome spec_float :=
  let* physical_value :=
    if is_signed then
      let* signed_value := sign_extend raw_value (Sig.length signal) in
      Returns (f32_add (f32_mul (f32_of_Z signed_value) (Sig.factor signal))
                       (Sig.offset signal))
    else
      Returns (f32_add (f32_mul (f32_of_Z raw_value) (Sig.factor signal))
                       (Sig.offset signal))
  in Returns (range_check signal physical_value).

Definition speed_signal : Can_Signal_t :=
  {| Sig.start_bit := 0; Sig.length := 16; Sig.factor := f32_0_01;
     Sig.offset := f32_0_0; Sig.min_value := f32_0_0;
     Sig.max_value := f32_300_0 |}.

Definition Can_ParseVehicleSpeed (msg : Can_Message_t) : outcome spec_float :=
  let* raw_speed :=
    Can_ExtractSignal msg (Sig.start_bit speed_signal) (Sig.length speed_signal)
      false in
  Can_SignalToPhysical raw_speed speed_signal false.

(** ** Message construction and validation *)

(** The message after [memset] and the four header assignments of
    [Can_CreateEngineRpmMessage]. *)
Definition rpm_header : Can_Message_t :=
  {| Msg.id := 0x234; Msg.dlc := 8; Msg.data := zero_payload;
     Msg.extended_id := false; Msg.rtr := false |}.

(** The argument message is overwritten by [memset] before any use. *)
Definition Can_CreateEngineRpmMessage (msg : Can_Message_t) (rpm : Z)
  : outcome Can_Message_t :=
  let msg := rpm_header in
  let* raw_rpm := f32_to_u64 (f32_div (f32_of_Z rpm) f32_0_25) in
  let raw_rpm := if rpm >? 8000 then 32000 else raw_rpm in
  Can_InsertSignal msg 16 16 raw_rpm false.

Definition Can_ValidateMessage (msg : Can_Message_t) : bool :=
  if Msg.dlc msg >? 8 then false
  else if Msg.extended_id msg then
    (if Msg.id msg >? 0x1FFFFFFF then false else true)
  else
    (if Msg.id msg >? 0x7FF then false else true).

(** * Vocabulary of the properties *)

(** The payload bit at linear index [q = byte_index * 8 + bit_in_byte], where
    [bit_in_byte = 0] is the least significant bit of its byte. *)
Definition payload_bit (d : list Z) (q : Z) : bool :=
  match d !! Z.to_nat (q / 8) with
  | Some b => Z.testbit b (q mod 8)
  | None => false
  end.

(** The linear index of the payload bit that the loops address at signal
    position [i]: Intel mode addresses bit [bit_pos mod 8] of byte
    [bit_pos / 8]; Motorola mode addresses bit [7 - bit_pos mod 8] of that
    byte. *)
Definition mirror (bit_pos : Z) : Z := 8 * (bit_pos / 8) + (7 - bit_pos mod 8).

Definition field_index (start_bit : Z) (motorola : bool) (i : Z) : Z :=
  if motorola then mirror (start_bit - i) else start_bit + i.

(** The field lies fully within the 64 bits of an 8-byte payload: every
    [bit_pos] of the loop is in [0 .. 63]. *)
Definition field_in_payload (start_bit length : Z) (motorola : bool) : Prop :=
  1 <= length <= 64 /\
  if motorola then length - 1 <= start_bit <= 63
  else 0 <= start_bit /\ start_bit + length <= 64.

(** The byte index the loops compute at signal position [i], with the
    narrowing of [bit_pos] to 16 bits and of [byte_idx] to 8 bits. *)
Definition byte_index (start_bit : Z) (motorola : bool) (i : Z) : Z :=
  u8 (u16 (if motorola then start_bit - i else start_bit + i) / 8).

(** The value bit that [Can_InsertSignal] writes at signal position [i], and
    the result bit that [Can_ExtractSignal] sets there. *)
Definition value_index (length : Z) (motorola : bool) (i : Z) : Z :=
  if motorola then length - 1 - i else i.

(** The integer that [Can_SignalToPhysical] casts to [float]. *)
Definition numeric_value (raw_value length : Z) (is_signed : bool) : outcome Z :=
  if is_signed then sign_extend raw_value length else Returns raw_value.

(** Scaling: [numeric * factor + offset] in [float] arithmetic. *)
Definition scaled (signal : Can_Signal_t) (numeric : Z) : spec_float :=
  f32_add (f32_mul (f32_of_Z numeric) (Sig.factor signal)) (Sig.offset signal).

(** Whether the range check replaces the scaled value by a bound. *)
Definition clamped (signal : Can_Signal_t) (physical_value : spec_float) : bool :=
  f32_lt physical_value (Sig.min_value signal)
  || f32_gt physical_value (Sig.max_value signal).

(** [check_range lo n P] tests [P] on [lo], [lo + 1], ..., [lo + n - 1]. *)
Fixpoint check_range (lo : Z) (n : nat) (P : Z -> bool) : bool :=
  match n with
  | O => true
  | S n' => P lo && check_range (lo + 1) n' P
  end.

(** The payload as the C type has it: eight bytes, each a [uint8_t]. *)
Definition payload_bytes (d : list Z) : Prop :=
  List.length d = 8%nat /\ Forall (fun b => 0 <= b < 256) d.

(** The payload read as one little-endian number: byte 0 is the least
    significant. *)
Fixpoint le_combine (d : list Z) : Z :=
  match d with
  | [] => 0
  | b :: t => b + 256 * le_combine t
  end.

(** The byte with the order of its eight bits reversed. *)
Definition rev8 (b : Z) : Z :=
  Z.b2z (Z.testbit b 0) * 128 + Z.b2z (Z.testbit b 1) * 64
  + Z.b2z (Z.testbit b 2) * 32 + Z.b2z (Z.testbit b 3) * 16
  + Z.b2z (Z.testbit b 4) * 8 + Z.b2z (Z.testbit b 5) * 4
  + Z.b2z (Z.testbit b 6) * 2 + Z.b2z (Z.testbit b 7).

(** Two fields address no common payload bit. *)
Definition fields_disjoint (start_a length_a : Z) (motorola_a : bool)
  (start_b length_b : Z) (motorola_b : bool) : Prop :=
  forall i j, 0 <= i < length_a -> 0 <= j < length_b ->
    field_index start_a motorola_a i <> field_index start_b motorola_b j.

(** Not-a-number, the one [float] that no comparison orders. *)
Definition is_nan (f : spec_float) : bool :=
  match f with S754_nan => true | _ => false end.

(** Structural equality of [float] values, as a test. *)
Definition float_eqb (x y : spec_float) : bool :=
  match x, y with
  | S754_zero s, S754_zero s' => Bool.eqb s s'
  | S754_infinity s, S754_infinity s' => Bool.eqb s s'
  | S754_nan, S754_nan => true
  | S754_finite s m e, S754_finite s' m' e' =>
      Bool.eqb s s' && (m =? m')%positive && (e =? e')
  | _, _ => false
  end.

(** The engine speed signal as the comment of [Can_CreateEngineRpmMessage]
    describes it: bit 16, 16 bits, factor 0.25, offset 0, range 0..8000. *)
Definition rpm_signal : Can_Signal_t :=
  {| Sig.start_bit := 16; Sig.length := 16; Sig.factor := f32_0_25;
     Sig.offset := f32_0_0; Sig.min_value := f32_0_0;
     Sig.max_value := f32_of_Z 8000 |}.

(** * Properties *)

(** ** Bits of machine integers *)

Lemma land_1_eqb (x : Z) : (Z.land x 1 =? 0) = negb (Z.testbit x 0).
Proof.
  change 1 with (Z.ones 1). rewrite Z.land_ones by lia.
  rewrite Z.bit0_eqb. change (2 ^ 1) with 2.
  pose proof (Z.mod_pos_bound x 2 ltac:(lia)).
  destruct (Z.eqb_spec (x mod 2) 0), (Z.eqb_spec (x mod 2) 1); simpl; lia.
Qed.

Lemma shiftr_land_1_eqb (b k : Z) :
  0 <= k -> (Z.land (Z.shiftr b k) 1 =? 0) = negb (Z.testbit b k).
Proof.
  intros Hk. rewrite land_1_eqb, Z.shiftr_spec by lia. reflexivity.
Qed.

Lemma u8_testbit (x k : Z) : 0 <= k < 8 -> Z.testbit (u8 x) k = Z.testbit x k.
Proof. intros Hk. unfold u8. apply Z.mod_pow2_bits_low. lia. Qed.

Lemma testbit_set (b k t : Z) :
  0 <= k -> 0 <= t ->
  Z.testbit (Z.lor b (Z.shiftl 1 k)) t = if t =? k then true else Z.testbit b t.
Proof.
  intros Hk Ht. rewrite Z.lor_spec, Z.shiftl_1_l, Z.pow2_bits_eqb by lia.
  rewrite (Z.eqb_sym k t). destruct (t =? k); [apply orb_true_r | apply orb_false_r].
Qed.

Lemma testbit_clear (b k t : Z) :
  0 <= k -> 0 <= t ->
  Z.testbit (Z.land b (Z.lnot (Z.shiftl 1 k))) t
  = if t =? k then false else Z.testbit b t.
Proof.
  intros Hk Ht.
  rewrite Z.land_spec, Z.lnot_spec, Z.shiftl_1_l, Z.pow2_bits_eqb by lia.
  rewrite (Z.eqb_sym k t). destruct (t =? k); simpl;
    [apply andb_false_r | apply andb_true_r].
Qed.

Lemma shl64_1 (n : Z) : 0 <= n < 64 -> shl64 1 n = Returns (2 ^ n).
Proof.
  intros Hn. unfold shl64.
  destruct (Z.leb_spec 0 n), (Z.ltb_spec n 64); try lia. simpl.
  rewrite Z.shiftl_1_l. unfold u64. f_equal. apply Z.mod_small.
  split; [apply Z.pow_nonneg; lia | apply Z.pow_lt_mono_r; lia].
Qed.

Lemma shr64_bit0 (x n : Z) :
  0 <= n < 64 ->
  exists v, shr64 x n = Returns v /\ (Z.land v 1 =? 0) = negb (Z.testbit x n).
Proof.
  intros Hn. unfold shr64.
  destruct (Z.leb_spec 0 n), (Z.ltb_spec n 64); try lia. simpl.
  eexists; split; [reflexivity | apply shiftr_land_1_eqb; lia].
Qed.

(** ** Reading and writing one payload bit *)

Lemma split_index (p byte_idx bit_idx : Z) :
  0 <= bit_idx < 8 ->
  (p =? 8 * byte_idx + bit_idx) = (p / 8 =? byte_idx) && (p mod 8 =? bit_idx).
Proof.
  intros Hb. pose proof (Z.div_mod p 8 ltac:(lia)).
  pose proof (Z.mod_pos_bound p 8 ltac:(lia)).
  destruct (Z.eqb_spec p (8 * byte_idx + bit_idx)),
    (Z.eqb_spec (p / 8) byte_idx), (Z.eqb_spec (p mod 8) bit_idx);
    simpl; try reflexivity; exfalso; lia.
Qed.

Lemma read_data_bit (d : list Z) (byte_idx bit_idx : Z) :
  List.length d = 8%nat -> 0 <= byte_idx < 8 -> 0 <= bit_idx < 8 ->
  exists b, read_data d byte_idx = Returns b /\
            Z.testbit b bit_idx = payload_bit d (8 * byte_idx + bit_idx).
Proof.
  intros Hd Hy Hb. unfold read_data, payload_bit.
  replace ((8 * byte_idx + bit_idx) / 8) with byte_idx
    by (apply Z.div_unique with bit_idx; lia).
  replace ((8 * byte_idx + bit_idx) mod 8) with bit_idx
    by (apply Z.mod_unique with byte_idx; lia).
  destruct (lookup_lt_is_Some_2 d (Z.to_nat byte_idx)) as [b Hb']; [lia|].
  rewrite Hb'. eauto.
Qed.

Lemma modify_data_bit (d : list Z) (byte_idx bit_idx : Z) (v : bool) :
  List.length d = 8%nat -> 0 <= byte_idx < 8 -> 0 <= bit_idx < 8 ->
  exists d',
    modify_data d byte_idx
      (fun b => if v then Z.lor b (Z.shiftl 1 bit_idx)
                else Z.land b (Z.lnot (Z.shiftl 1 bit_idx))) = Returns d' /\
    List.length d' = 8%nat /\
    forall p, 0 <= p < 64 ->
      payload_bit d' p
      = if p =? 8 * byte_idx + bit_idx then v else payload_bit d p.
Proof.
  intros Hd Hy Hb. unfold modify_data, read_data.
  destruct (lookup_lt_is_Some_2 d (Z.to_nat byte_idx)) as [b Hlk]; [lia|].
  rewrite Hlk. simpl. eexists; split; [reflexivity|]. split.
  { rewrite length_insert. exact Hd. }
  intros p Hp. unfold payload_bit. rewrite (split_index p) by lia.
  pose proof (Z.mod_pos_bound p 8 ltac:(lia)) as Hm.
  assert (0 <= p / 8) by (apply Z.div_pos; lia).
  destruct (Z.eqb_spec (p / 8) byte_idx) as [->|Hne]; simpl.
  - rewrite list_lookup_insert_eq by lia. rewrite Hlk, u8_testbit by lia.
    destruct v; [rewrite testbit_set by lia | rewrite testbit_clear by lia];
      destruct (p mod 8 =? bit_idx); reflexivity.
  - rewrite list_lookup_insert_ne by lia. reflexivity.
Qed.

(** ** Address computation inside the payload *)

Ltac div8 p :=
  pose proof (Z.div_mod p 8 ltac:(lia));
  pose proof (Z.mod_pos_bound p 8 ltac:(lia)).

Lemma addr_in_payload (p : Z) :
  0 <= p < 64 ->
  u16 p = p /\ u8 (p / 8) = p / 8 /\ 0 <= p / 8 < 8 /\
  u8 (p mod 8) = p mod 8 /\ u8 (7 - p mod 8) = 7 - p mod 8.
Proof.
  intros Hp. div8 p. unfold u16, u8.
  change (2 ^ 16) with 65536. change (2 ^ 8) with 256.
  repeat split; try apply Z.mod_small; lia.
Qed.

Lemma mirror_range (p : Z) : 0 <= p < 64 -> 0 <= mirror p < 64.
Proof. intros Hp. unfold mirror. div8 p. lia. Qed.

Lemma mirror_inj (p p' : Z) : mirror p = mirror p' -> p = p'.
Proof. unfold mirror. div8 p. div8 p'. lia. Qed.

Lemma field_index_range (start_bit length : Z) (motorola : bool) (i : Z) :
  field_in_payload start_bit length motorola -> 0 <= i < length ->
  0 <= field_index start_bit motorola i < 64.
Proof.
  intros [Hl Hs] Hi. unfold field_index.
  destruct motorola; [apply mirror_range|]; lia.
Qed.

Lemma field_index_inj (start_bit : Z) (motorola : bool) (i j : Z) :
  field_index start_bit motorola i = field_index start_bit motorola j -> i = j.
Proof.
  unfold field_index. destruct motorola; intros H;
    [apply mirror_inj in H|]; lia.
Qed.

(** ** One loop iteration *)

Lemma insert_intel_body_spec (start_bit value i : Z) (d : list Z) :
  List.length d = 8%nat -> 0 <= i < 64 -> 0 <= start_bit + i < 64 ->
  exists d',
    insert_intel_body start_bit value i d = Returns d' /\
    List.length d' = 8%nat /\
    forall p, 0 <= p < 64 ->
      payload_bit d' p
      = if p =? start_bit + i then Z.testbit value i else payload_bit d p.
Proof.
  intros Hd Hi Hp. unfold insert_intel_body.
  destruct (addr_in_payload _ Hp) as (-> & -> & Hy & -> & _).
  div8 (start_bit + i).
  destruct (shr64_bit0 value i Hi) as (v & -> & Hv). simpl. rewrite Hv.
  destruct (modify_data_bit d ((start_bit + i) / 8) ((start_bit + i) mod 8)
              (Z.testbit value i)) as (d' & Hm & Hl & Hbits); try lia.
  exists d'. split; [destruct (Z.testbit value i); exact Hm|].
  split; [exact Hl|]. intros p Hq. rewrite Hbits by lia.
  replace (8 * ((start_bit + i) / 8) + (start_bit + i) mod 8)
    with (start_bit + i) by lia.
  reflexivity.
Qed.

Lemma insert_motorola_body_spec (start_bit length value i : Z) (d : list Z) :
  List.length d = 8%nat -> 0 <= length - 1 - i < 64 -> 0 <= start_bit - i < 64 ->
  exists d',
    insert_motorola_body start_bit length value i d = Returns d' /\
    List.length d' = 8%nat /\
    forall p, 0 <= p < 64 ->
      payload_bit d' p
      = if p =? mirror (start_bit - i) then Z.testbit value (length - 1 - i)
        else payload_bit d p.
Proof.
  intros Hd Hi Hp. unfold insert_motorola_body.
  destruct (addr_in_payload _ Hp) as (-> & -> & Hy & _ & ->).
  div8 (start_bit - i).
  destruct (shr64_bit0 value (length - 1 - i) Hi) as (v & -> & Hv).
  simpl. rewrite Hv.
  destruct (modify_data_bit d ((start_bit - i) / 8) (7 - (start_bit - i) mod 8)
              (Z.testbit value (length - 1 - i)))
    as (d' & Hm & Hl & Hbits); try lia.
  exists d'. split; [destruct (Z.testbit value (length - 1 - i)); exact Hm|].
  split; [exact Hl|]. intros p Hq. rewrite Hbits by lia. reflexivity.
Qed.

Lemma extract_intel_body_spec (d : list Z) (start_bit i raw_value : Z) :
  List.length d = 8%nat -> 0 <= i < 64 -> 0 <= start_bit + i < 64 ->
  extract_intel_body d start_bit i raw_value
  = Returns (if payload_bit d (start_bit + i)
             then Z.lor raw_value (2 ^ i) else raw_value).
Proof.
  intros Hd Hi Hp. unfold extract_intel_body.
  destruct (addr_in_payload _ Hp) as (-> & -> & Hy & -> & _).
  div8 (start_bit + i).
  destruct (read_data_bit d ((start_bit + i) / 8) ((start_bit + i) mod 8))
    as (b & -> & Hb); try lia.
  simpl. rewrite shiftr_land_1_eqb, Hb by lia.
  replace (8 * ((start_bit + i) / 8) + (start_bit + i) mod 8)
    with (start_bit + i) by lia.
  destruct (payload_bit d (start_bit + i)); simpl; [|reflexivity].
  rewrite shl64_1 by lia. reflexivity.
Qed.

Lemma extract_motorola_body_spec (d : list Z) (start_bit length i raw_value : Z) :
  List.length d = 8%nat -> 0 <= length - 1 - i < 64 -> 0 <= start_bit - i < 64 ->
  extract_motorola_body d start_bit length i raw_value
  = Returns (if payload_bit d (mirror (start_bit - i))
             then Z.lor raw_value (2 ^ (length - 1 - i)) else raw_value).
Proof.
  intros Hd Hi Hp. unfold extract_motorola_body.
  destruct (addr_in_payload _ Hp) as (-> & -> & Hy & _ & ->).
  div8 (start_bit - i).
  destruct (read_data_bit d ((start_bit - i) / 8) (7 - (start_bit - i) mod 8))
    as (b & -> & Hb); try lia.
  simpl. rewrite shiftr_land_1_eqb, Hb by lia. fold (mirror (start_bit - i)).
  destruct (payload_bit d (mirror (start_bit - i))); simpl; [|reflexivity].
  rewrite shl64_1 by lia. reflexivity.
Qed.

(** ** Loops that write or read one payload bit per iteration *)

Section WriteLoop.
Variable body : Z -> list Z -> outcome (list Z).
Variables (q : Z -> Z) (vb : Z -> bool) (hi : Z).

Hypothesis body_spec : forall i d,
  0 <= i < hi -> List.length d = 8%nat ->
  exists d', body i d = Returns d' /\ List.length d' = 8%nat /\
    forall p, 0 <= p < 64 ->
      payload_bit d' p = if p =? q i then vb i else payload_bit d p.
Hypothesis q_range : forall i, 0 <= i < hi -> 0 <= q i < 64.
Hypothesis q_inj : forall i j, q i = q j -> i = j.

Lemma write_loop_spec (n : nat) : forall i d,
  0 <= i -> i + Z.of_nat n <= hi -> List.length d = 8%nat ->
  exists d', for_loop n i body d = Returns d' /\ List.length d' = 8%nat /\
    (forall p, 0 <= p < 64 -> (forall j, i <= j < i + Z.of_nat n -> p <> q j) ->
               payload_bit d' p = payload_bit d p) /\
    (forall j, i <= j < i + Z.of_nat n -> payload_bit d' (q j) = vb j).
Proof.
  induction n as [|n IH]; intros i d Hi Hn Hd.
  - exists d. simpl. repeat split; auto. intros j Hj. lia.
  - destruct (body_spec i d) as (d1 & Hb & Hd1 & Hbits); [lia | exact Hd |].
    destruct (IH (i + 1) d1) as (d' & Hl & Hd' & Hout & Hin); [lia | lia | exact Hd1 |].
    exists d'. simpl. rewrite Hb. simpl. repeat split; auto.
    + intros p Hp Hfree. rewrite Hout, Hbits by (auto; intros j Hj; apply Hfree; lia).
      destruct (Z.eqb_spec p (q i)) as [Heq|]; [|reflexivity].
      exfalso. apply (Hfree i); [lia | exact Heq].
    + intros j Hj. destruct (Z.eq_dec j i) as [->|Hne].
      * rewrite Hout, Hbits by
          (try (apply q_range; lia); intros j Hj' Heq; apply q_inj in Heq; lia).
        rewrite Z.eqb_refl. reflexivity.
      * apply Hin. lia.
Qed.
End WriteLoop.

Section ReadLoop.
Variable d : list Z.
Variable body : Z -> Z -> outcome Z.
Variables (q dst src : Z -> Z) (hi : Z).

Hypothesis body_spec : forall i raw,
  0 <= i < hi ->
  body i raw = Returns (if payload_bit d (q i) then Z.lor raw (2 ^ dst i) else raw).
Hypothesis dst_range : forall i, 0 <= i < hi -> 0 <= dst i.
Hypothesis src_dst : forall i, src (dst i) = i.
Hypothesis dst_src : forall k, dst (src k) = k.

Lemma read_loop_spec (n : nat) : forall i raw,
  0 <= i -> i + Z.of_nat n <= hi ->
  exists r, for_loop n i body raw = Returns r /\
    forall k, 0 <= k ->
      Z.testbit r k
      = Z.testbit raw k
        || ((i <=? src k) && (src k <? i + Z.of_nat n) && payload_bit d (q (src k))).
Proof.
  induction n as [|n IH]; intros i raw Hi Hn.
  - exists raw. split; [reflexivity|]. intros k Hk.
    destruct (Z.leb_spec i (src k)), (Z.ltb_spec (src k) (i + Z.of_nat 0));
      simpl; try lia; rewrite orb_false_r; reflexivity.
  - simpl for_loop. rewrite body_spec by lia. simpl bind.
    destruct (IH (i + 1) (if payload_bit d (q i) then Z.lor raw (2 ^ dst i) else raw))
      as (r & Hr & Hbits); [lia | lia |].
    exists r. split; [exact Hr|]. intros k Hk. rewrite Hbits by lia.
    assert (Hone : Z.testbit (if payload_bit d (q i)
                              then Z.lor raw (2 ^ dst i) else raw) k
                   = Z.testbit raw k || ((k =? dst i) && payload_bit d (q i))).
    { destruct (payload_bit d (q i)).
      - rewrite Z.lor_spec, Z.pow2_bits_eqb by (apply dst_range; lia).
        rewrite (Z.eqb_sym (dst i) k), andb_true_r. reflexivity.
      - rewrite andb_false_r, orb_false_r. reflexivity. }
    rewrite Hone.
    destruct (Z.eqb_spec k (dst i)) as [->|Hne].
    + rewrite src_dst.
      destruct (Z.leb_spec (i + 1) i), (Z.leb_spec i i),
        (Z.ltb_spec i (i + Z.of_nat (S n))); try lia.
      simpl. rewrite orb_false_r. reflexivity.
    + assert (src k <> i) by (intros <-; apply Hne; symmetry; apply dst_src).
      destruct (Z.leb_spec (i + 1) (src k)), (Z.leb_spec i (src k)),
        (Z.ltb_spec (src k) (i + 1 + Z.of_nat n)),
        (Z.ltb_spec (src k) (i + Z.of_nat (S n))); try lia;
        simpl; rewrite ?orb_false_r; reflexivity.
Qed.
End ReadLoop.

(** ** Insertion and extraction as a whole *)

Lemma value_index_involutive (length : Z) (motorola : bool) (i : Z) :
  value_index length motorola (value_index length motorola i) = i.
Proof. unfold value_index. destruct motorola; lia. Qed.

Lemma insert_loop_spec (d : list Z) (start_bit length value : Z) (motorola : bool) :
  List.length d = 8%nat -> field_in_payload start_bit length motorola ->
  exists d',
    (if motorola
     then for_loop (Z.to_nat length) 0 (insert_motorola_body start_bit length value) d
     else for_loop (Z.to_nat length) 0 (insert_intel_body start_bit value) d)
    = Returns d' /\
    List.length d' = 8%nat /\
    (forall p, 0 <= p < 64 ->
       (forall j, 0 <= j < length -> p <> field_index start_bit motorola j) ->
       payload_bit d' p = payload_bit d p) /\
    (forall j, 0 <= j < length ->
       payload_bit d' (field_index start_bit motorola j)
       = Z.testbit value (value_index length motorola j)).
Proof.
  intros Hd Hf. pose proof Hf as [Hl Hs].
  pose proof (field_index_range start_bit length motorola) as Hrange.
  pose proof (@field_index_inj start_bit motorola) as Hinj.
  unfold field_index, value_index in *.
  destruct motorola.
  - destruct (write_loop_spec (insert_motorola_body start_bit length value)
                (fun i => mirror (start_bit - i))
                (fun i => Z.testbit value (length - 1 - i)) length)
      with (n := Z.to_nat length) (i := 0) (d := d)
      as (d' & Hr & Hd' & Hout & Hin); auto; try lia.
    { intros i d0 Hi Hd0. apply insert_motorola_body_spec; auto; lia. }
    exists d'. repeat split; auto.
    + intros p Hp Hfree. apply Hout; auto. intros j Hj. apply Hfree. lia.
    + intros j Hj. apply Hin. lia.
  - destruct (write_loop_spec (insert_intel_body start_bit value)
                (fun i => start_bit + i) (fun i => Z.testbit value i) length)
      with (n := Z.to_nat length) (i := 0) (d := d)
      as (d' & Hr & Hd' & Hout & Hin); auto; try lia.
    { intros i d0 Hi Hd0. apply insert_intel_body_spec; auto; lia. }
    exists d'. repeat split; auto.
    + intros p Hp Hfree. apply Hout; auto. intros j Hj. apply Hfree. lia.
    + intros j Hj. apply Hin. lia.
Qed.

Lemma extract_loop_spec (d : list Z) (start_bit length : Z) (motorola : bool) :
  List.length d = 8%nat -> field_in_payload start_bit length motorola ->
  exists r,
    (if motorola
     then for_loop (Z.to_nat length) 0 (extract_motorola_body d start_bit length) 0
     else for_loop (Z.to_nat length) 0 (extract_intel_body d start_bit) 0)
    = Returns r /\
    forall k, 0 <= k ->
      Z.testbit r k
      = (k <? length)
        && payload_bit d (field_index start_bit motorola (value_index length motorola k)).
Proof.
  intros Hd [Hl Hs]. unfold field_index, value_index. destruct motorola.
  - destruct (read_loop_spec d (extract_motorola_body d start_bit length)
                (fun i => mirror (start_bit - i))
                (fun i => length - 1 - i) (fun k => length - 1 - k) length)
      with (n := Z.to_nat length) (i := 0) (raw := 0) as (r & Hr & Hbits);
      try (intros; lia).
    { intros i raw Hi. apply extract_motorola_body_spec; auto; lia. }
    exists r. split; [exact Hr|]. intros k Hk. rewrite Hbits, Z.bits_0 by lia.
    simpl. destruct (Z.leb_spec 0 (length - 1 - k)),
      (Z.ltb_spec (length - 1 - k) (0 + Z.of_nat (Z.to_nat length))),
      (Z.ltb_spec k length); try lia; reflexivity.
  - destruct (read_loop_spec d (extract_intel_body d start_bit)
                (fun i => start_bit + i) (fun i => i) (fun k => k) length)
      with (n := Z.to_nat length) (i := 0) (raw := 0) as (r & Hr & Hbits);
      try (intros; lia).
    { intros i raw Hi. apply extract_intel_body_spec; auto; lia. }
    exists r. split; [exact Hr|]. intros k Hk. rewrite Hbits, Z.bits_0 by lia.
    simpl. destruct (Z.leb_spec 0 k),
      (Z.ltb_spec k (0 + Z.of_nat (Z.to_nat length))),
      (Z.ltb_spec k length); try lia; reflexivity.
Qed.

Lemma testbit_small (value length k : Z) :
  0 <= value < 2 ^ length -> length <= k -> Z.testbit value k = false.
Proof.
  intros Hv Hk. destruct (Z.eq_dec value 0) as [->|Hne]; [apply Z.bits_0|].
  apply Z.bits_above_log2; [lia|].
  assert (Z.log2 value < length) by (apply Z.log2_lt_pow2; lia). lia.
Qed.

(** Inserting into any 8-byte payload and extracting with the same geometry
    gives the value back. *)
Lemma roundtrip_any_payload (msg : Can_Message_t)
  (start_bit length value : Z) (motorola : bool) :
  wf_msg msg -> field_in_payload start_bit length motorola ->
  0 <= value < 2 ^ length ->
  (let* msg' := Can_InsertSignal msg start_bit length value motorola in
   Can_ExtractSignal msg' start_bit length motorola) = Returns value.
Proof.
  intros Hwf Hf Hv. unfold Can_InsertSignal, Can_ExtractSignal.
  destruct (insert_loop_spec (Msg.data msg) start_bit length value motorola Hwf Hf)
    as (d' & Hins & Hd' & _ & Hin).
  destruct (extract_loop_spec d' start_bit length motorola Hd' Hf)
    as (r & Hext & Hbits).
  assert (Hr : r = value).
  { apply Z.bits_inj'. intros k Hk. rewrite Hbits by lia.
    destruct (Z.ltb_spec k length) as [Hlt|Hge]; simpl.
    - rewrite Hin by (unfold value_index; destruct motorola; lia).
      rewrite value_index_involutive. reflexivity.
    - symmetry. apply testbit_small with length; lia. }
  subst r. destruct motorola; rewrite Hins; simpl; exact Hext.
Qed.

(** C1. Round-trip identity of the bit codec: for every length in 1..64,
    either byte order, every start bit that places the field fully within
    the 8-byte payload and every value below [2 ^ length], extracting from
    a zeroed payload into which the value was inserted with the same
    geometry returns the value. *)
Theorem roundtrip_zero_payload (msg : Can_Message_t)
  (start_bit length value : Z) (motorola : bool) :
  Msg.data msg = zero_payload ->
  field_in_payload start_bit length motorola ->
  0 <= value < 2 ^ length ->
  (let* msg' := Can_InsertSignal msg start_bit length value motorola in
   Can_ExtractSignal msg' start_bit length motorola) = Returns value.
Proof.
  intros Hz. apply roundtrip_any_payload. unfold wf_msg. rewrite Hz. reflexivity.
Qed.

Lemma roundtrip_zero_payload_witness :
  (let* msg' := Can_InsertSignal zero_msg 15 16 0x1234 true in
   Can_ExtractSignal msg' 15 16 true) = Returns 0x1234.
Proof.
  apply (roundtrip_zero_payload zero_msg 15 16 0x1234 true).
  - reflexivity.
  - unfold field_in_payload. lia.
  - lia.
Defined.

(** C3. Insertion does not disturb bits outside the addressed field: for
    every 8-byte payload, every well-formed geometry and every value,
    [Can_InsertSignal] returns a message in which every payload bit whose
    linear index is not one of the indices addressed by the field has the
    value it had before the call. *)
Theorem insert_preserves_other_bits (msg : Can_Message_t)
  (start_bit length value : Z) (motorola : bool) :
  wf_msg msg -> field_in_payload start_bit length motorola ->
  exists msg',
    Can_InsertSignal msg start_bit length value motorola = Returns msg' /\
    forall p, 0 <= p < 64 ->
      (forall i, 0 <= i < length -> p <> field_index start_bit motorola i) ->
      payload_bit (Msg.data msg') p = payload_bit (Msg.data msg) p.
Proof.
  intros Hwf Hf. unfold Can_InsertSignal.
  destruct (insert_loop_spec (Msg.data msg) start_bit length value motorola Hwf Hf)
    as (d' & Hins & _ & Hout & _).
  exists (with_data msg d'). split; [|exact Hout].
  destruct motorola; rewrite Hins; reflexivity.
Qed.

Lemma insert_preserves_other_bits_witness :
  exists msg',
    Can_InsertSignal (with_data zero_msg [255; 255; 255; 255; 255; 255; 255; 255])
      12 5 0 true = Returns msg' /\
    forall p, 0 <= p < 64 ->
      (forall i, 0 <= i < 5 -> p <> field_index 12 true i) ->
      payload_bit (Msg.data msg') p
      = payload_bit [255; 255; 255; 255; 255; 255; 255; 255] p.
Proof.
  apply (insert_preserves_other_bits
           (with_data zero_msg [255; 255; 255; 255; 255; 255; 255; 255]) 12 5 0 true).
  - reflexivity.
  - unfold field_in_payload. lia.
Defined.

(** Whenever [Can_InsertSignal] returns, only [data] differs. *)
Lemma insert_returns_frame (msg msg' : Can_Message_t)
  (start_bit length value : Z) (motorola : bool) :
  Can_InsertSignal msg start_bit length value motorola = Returns msg' ->
  Msg.id msg' = Msg.id msg /\ Msg.dlc msg' = Msg.dlc msg /\
  Msg.extended_id msg' = Msg.extended_id msg /\ Msg.rtr msg' = Msg.rtr msg.
Proof.
  unfold Can_InsertSignal. intros H.
  destruct (if motorola then _ else _) as [d|]; simpl in H; [|discriminate].
  injection H as <-. repeat split.
Qed.

(** C7. Message validation: [Can_ValidateMessage] accepts a message exactly
    when its [dlc] is at most 8 and its identifier is at most [0x7FF]
    (standard) or [0x1FFFFFFF] (extended); [0x7FF] standard and
    [0x1FFFFFFF] extended pass, [0x800] standard and [0x20000000] extended
    fail, and [dlc = 9] fails whatever the identifier. *)
Theorem validate_message_spec :
  (forall msg : Can_Message_t,
     Can_ValidateMessage msg = true <->
     Msg.dlc msg <= 8 /\
     Msg.id msg <= (if Msg.extended_id msg then 0x1FFFFFFF else 0x7FF)) /\
  (forall d r, Can_ValidateMessage
     {| Msg.id := 0x7FF; Msg.dlc := 8; Msg.data := d;
        Msg.extended_id := false; Msg.rtr := r |} = true) /\
  (forall d r, Can_ValidateMessage
     {| Msg.id := 0x1FFFFFFF; Msg.dlc := 8; Msg.data := d;
        Msg.extended_id := true; Msg.rtr := r |} = true) /\
  (forall l d r, Can_ValidateMessage
     {| Msg.id := 0x800; Msg.dlc := l; Msg.data := d;
        Msg.extended_id := false; Msg.rtr := r |} = false) /\
  (forall l d r, Can_ValidateMessage
     {| Msg.id := 0x20000000; Msg.dlc := l; Msg.data := d;
        Msg.extended_id := true; Msg.rtr := r |} = false) /\
  (forall i d e r, Can_ValidateMessage
     {| Msg.id := i; Msg.dlc := 9; Msg.data := d;
        Msg.extended_id := e; Msg.rtr := r |} = false).
Proof.
  split; [|repeat split; intros; unfold Can_ValidateMessage; simpl;
           repeat match goal with
                  | |- context [?a >? ?b] => destruct (Z.gtb_spec a b); try lia
                  | |- context [if ?e then _ else _] => destruct e
                  end; reflexivity].
  intros msg. unfold Can_ValidateMessage.
  destruct (Z.gtb_spec (Msg.dlc msg) 8), (Msg.extended_id msg);
    repeat match goal with
           | |- context [?a >? ?b] => destruct (Z.gtb_spec a b)
           end; split; intros; try discriminate; try lia; reflexivity.
Qed.

(** C10, as the code has it: for every 8-byte message, every geometry whose
    field lies within the payload and every value, [Can_InsertSignal]
    returns a message whose [id], [dlc], [extended_id] and [rtr] are those
    of the argument; only [data] is modified. *)
Theorem insert_modifies_only_data (msg : Can_Message_t)
  (start_bit length value : Z) (motorola : bool) :
  wf_msg msg -> field_in_payload start_bit length motorola ->
  exists msg',
    Can_InsertSignal msg start_bit length value motorola = Returns msg' /\
    wf_msg msg' /\
    Msg.id msg' = Msg.id msg /\ Msg.dlc msg' = Msg.dlc msg /\
    Msg.extended_id msg' = Msg.extended_id msg /\ Msg.rtr msg' = Msg.rtr msg.
Proof.
  intros Hwf Hf. unfold Can_InsertSignal.
  destruct (insert_loop_spec (Msg.data msg) start_bit length value motorola Hwf Hf)
    as (d' & Hins & Hd' & _ & _).
  exists (with_data msg d').
  split; [destruct motorola; rewrite Hins; reflexivity|].
  repeat split. exact Hd'.
Qed.

Lemma insert_modifies_only_data_witness :
  exists msg',
    Can_InsertSignal zero_msg 16 16 32000 false = Returns msg' /\
    wf_msg msg' /\
    Msg.id msg' = 0 /\ Msg.dlc msg' = 0 /\
    Msg.extended_id msg' = false /\ Msg.rtr msg' = false.
Proof.
  apply (insert_modifies_only_data zero_msg 16 16 32000 false).
  - reflexivity.
  - unfold field_in_payload. lia.
Defined.

(** C10, as stated, fails for a geometry that leaves the payload: with
    [start_bit = 60] and [length = 16] the Intel loop stores to [data[8]],
    past the end of the array, and the call has no defined result. *)
Lemma insert_past_payload_has_no_result :
  ~ exists msg',
      Can_InsertSignal zero_msg 60 16 0xFFFF false = Returns msg' /\
      Msg.id msg' = Msg.id zero_msg /\ Msg.dlc msg' = Msg.dlc zero_msg /\
      Msg.extended_id msg' = Msg.extended_id zero_msg /\
      Msg.rtr msg' = Msg.rtr zero_msg.
Proof. intros (msg' & H & _). vm_compute in H. discriminate. Qed.

(** C8, as stated, fails in Intel mode: with byte 0 equal to [0b10000001]
    and the other bytes zero, Intel extraction at [start_bit = 7],
    [length = 8] returns [0x01], not [0x81]. *)
Lemma intel_start_7_is_not_byte0 :
  Can_ExtractSignal (with_data zero_msg [0x81; 0; 0; 0; 0; 0; 0; 0]) 7 8 false
  <> Returns 0x81.
Proof. vm_compute. discriminate. Qed.

(** C8, as the code has it: for every payload whose byte 0 is [0b10000001],
    Motorola extraction at [start_bit = 7], [length = 8] returns [0x81];
    Intel extraction returns [0x81] at [start_bit = 0], [length = 8], where
    it reads byte 0; at [start_bit = 7], [length = 8] Intel extraction
    returns bit 7 of byte 0 followed by bits 0..6 of byte 1. *)
Theorem single_byte_extraction (msg : Can_Message_t) (b1 b2 b3 b4 b5 b6 b7 : Z) :
  Msg.data msg = [0x81; b1; b2; b3; b4; b5; b6; b7] ->
  Can_ExtractSignal msg 7 8 true = Returns 0x81 /\
  Can_ExtractSignal msg 0 8 false = Returns 0x81 /\
  Can_ExtractSignal msg 7 8 false = Returns (1 + 2 * (b1 mod 2 ^ 7)).
Proof.
  intros Hd. unfold Can_ExtractSignal. rewrite Hd.
  split; [reflexivity|]. split; [reflexivity|].
  destruct (extract_loop_spec [0x81; b1; b2; b3; b4; b5; b6; b7] 7 8 false)
    as (r & Hr & Hbits); [reflexivity | unfold field_in_payload; lia |].
  rewrite Hr. f_equal. apply Z.bits_inj'. intros k Hk.
  rewrite Hbits by lia. unfold field_index, value_index, payload_bit.
  destruct (Z.eq_dec k 0) as [->|Hk0].
  - rewrite (Z.add_comm 1), Z.testbit_odd_0. reflexivity.
  - assert (Hodd : Z.testbit (1 + 2 * (b1 mod 2 ^ 7)) k
                   = Z.testbit (b1 mod 2 ^ 7) (k - 1)).
    { replace k with (Z.succ (k - 1)) at 1 by lia.
      rewrite (Z.add_comm 1). apply Z.testbit_odd_succ. lia. }
    rewrite Hodd.
    destruct (Z.ltb_spec k 8) as [Hlt|Hge]; simpl.
    + replace ((7 + k) / 8) with 1 by (apply Z.div_unique with (k - 1); lia).
      replace ((7 + k) mod 8) with (k - 1) by (apply Z.mod_unique with 1; lia).
      simpl. rewrite Z.mod_pow2_bits_low by lia. reflexivity.
    + symmetry. apply Z.mod_pow2_bits_high. lia.
Qed.

Lemma single_byte_extraction_witness :
  Can_ExtractSignal (with_data zero_msg [0x81; 0x40; 0; 0; 0; 0; 0; 0]) 7 8 true
  = Returns 0x81 /\
  Can_ExtractSignal (with_data zero_msg [0x81; 0x40; 0; 0; 0; 0; 0; 0]) 0 8 false
  = Returns 0x81 /\
  Can_ExtractSignal (with_data zero_msg [0x81; 0x40; 0; 0; 0; 0; 0; 0]) 7 8 false
  = Returns (1 + 2 * (0x40 mod 2 ^ 7)).
Proof.
  apply (single_byte_extraction
           (with_data zero_msg [0x81; 0x40; 0; 0; 0; 0; 0; 0]) 0x40 0 0 0 0 0 0).
  reflexivity.
Defined.

(** ** Which calls are defined *)

Section LoopDefined.
Context {S : Type}.
Variable body : Z -> S -> outcome S.
Variables (Inv : S -> Prop) (ok : Z -> Prop) (hi : Z).

Hypothesis body_ok : forall i s,
  0 <= i < hi -> Inv s -> ok i -> exists s', body i s = Returns s' /\ Inv s'.
Hypothesis body_bad : forall i s,
  0 <= i < hi -> Inv s -> ~ ok i -> body i s = Undefined.
Hypothesis ok_dec : forall i, ok i \/ ~ ok i.

Lemma loop_returns (n : nat) : forall i s,
  0 <= i -> i + Z.of_nat n <= hi -> Inv s ->
  (forall j, i <= j < i + Z.of_nat n -> ok j) ->
  exists s', for_loop n i body s = Returns s' /\ Inv s'.
Proof.
  induction n as [|n IH]; intros i s Hi Hn Hs Hok.
  - exists s. split; [reflexivity | exact Hs].
  - destruct (body_ok i s) as (s1 & Hb & Hs1); [lia | exact Hs | apply Hok; lia |].
    simpl. rewrite Hb. simpl. apply IH; [lia | lia | exact Hs1 |].
    intros j Hj. apply Hok. lia.
Qed.

Lemma loop_undefined (n : nat) : forall i s,
  0 <= i -> i + Z.of_nat n <= hi -> Inv s ->
  (exists j, i <= j < i + Z.of_nat n /\ ~ ok j) ->
  for_loop n i body s = Undefined.
Proof.
  induction n as [|n IH]; intros i s Hi Hn Hs (j & Hj & Hbad).
  - lia.
  - simpl. destruct (ok_dec i) as [Hoki|Hbadi].
    + destruct (body_ok i s) as (s1 & Hb & Hs1); [lia | exact Hs | exact Hoki |].
      rewrite Hb. simpl. apply IH; [lia | lia | exact Hs1 |].
      exists j. split; [|exact Hbad].
      destruct (Z.eq_dec j i) as [->|]; [contradiction | lia].
    + rewrite body_bad by (auto; lia). reflexivity.
Qed.
End LoopDefined.

Lemma byte_index_nonneg (start_bit : Z) (motorola : bool) (i : Z) :
  0 <= byte_index start_bit motorola i.
Proof. unfold byte_index, u8. apply Z.mod_pos_bound. lia. Qed.

Lemma read_data_returns (d : list Z) (byte_idx : Z) :
  List.length d = 8%nat -> 0 <= byte_idx < 8 ->
  exists b, read_data d byte_idx = Returns b.
Proof.
  intros Hd Hy. unfold read_data.
  destruct (lookup_lt_is_Some_2 d (Z.to_nat byte_idx)) as [b ->]; [lia|]. eauto.
Qed.

Lemma read_data_undefined (d : list Z) (byte_idx : Z) :
  List.length d = 8%nat -> 8 <= byte_idx -> read_data d byte_idx = Undefined.
Proof.
  intros Hd Hy. unfold read_data. rewrite lookup_ge_None_2 by lia. reflexivity.
Qed.

Lemma modify_data_returns (d : list Z) (byte_idx : Z) (f : Z -> Z) :
  List.length d = 8%nat -> 0 <= byte_idx < 8 ->
  exists d', modify_data d byte_idx f = Returns d' /\ List.length d' = 8%nat.
Proof.
  intros Hd Hy. unfold modify_data.
  destruct (read_data_returns d byte_idx Hd Hy) as [b ->]. simpl.
  eexists; split; [reflexivity|]. rewrite length_insert. exact Hd.
Qed.

Lemma modify_data_undefined (d : list Z) (byte_idx : Z) (f : Z -> Z) :
  List.length d = 8%nat -> 8 <= byte_idx -> modify_data d byte_idx f = Undefined.
Proof.
  intros Hd Hy. unfold modify_data. rewrite read_data_undefined by assumption.
  reflexivity.
Qed.

(** Each loop body is defined exactly when its byte index is inside
    [data]; the shifts are in range because [length <= 64]. *)

Ltac body_returns Hd Hnn :=
  match goal with
  | |- context [read_data ?d ?y] =>
      let b := fresh "b" in
      destruct (read_data_returns d y) as [b ->];
      [exact Hd | split; [apply Hnn | assumption] |];
      simpl; destruct (_ =? 0); [eauto|]; rewrite shl64_1 by lia; simpl; eauto
  | |- context [shr64 ?v ?n] =>
      let x := fresh "x" in
      destruct (shr64_bit0 v n) as (x & -> & _); [lia|];
      simpl; destruct (_ =? 0);
      apply modify_data_returns; try exact Hd; (split; [apply Hnn | assumption])
  end.

Ltac body_undefined Hd :=
  match goal with
  | |- context [read_data ?d ?y] =>
      rewrite (read_data_undefined d y) by (auto; lia); reflexivity
  | |- context [shr64 ?v ?n] =>
      let x := fresh "x" in
      destruct (shr64_bit0 v n) as (x & -> & _); [lia|];
      simpl; destruct (_ =? 0); apply modify_data_undefined; auto; lia
  end.

Lemma extract_body_returns (d : list Z) (start_bit length : Z) (motorola : bool)
  (i raw_value : Z) :
  List.length d = 8%nat -> 0 <= i < length -> length <= 64 ->
  byte_index start_bit motorola i < 8 ->
  exists r,
    (if motorola then extract_motorola_body d start_bit length i raw_value
     else extract_intel_body d start_bit i raw_value) = Returns r.
Proof.
  intros Hd Hi Hl Hok. pose proof (byte_index_nonneg start_bit motorola i) as Hnn.
  destruct motorola; unfold byte_index in *;
    unfold extract_motorola_body, extract_intel_body; body_returns Hd Hnn.
Qed.

Lemma extract_body_undefined (d : list Z) (start_bit length : Z) (motorola : bool)
  (i raw_value : Z) :
  List.length d = 8%nat -> 8 <= byte_index start_bit motorola i ->
  (if motorola then extract_motorola_body d start_bit length i raw_value
   else extract_intel_body d start_bit i raw_value) = Undefined.
Proof.
  intros Hd Hbad.
  destruct motorola; unfold byte_index in *;
    unfold extract_motorola_body, extract_intel_body; body_undefined Hd.
Qed.

Lemma insert_body_returns (start_bit length value : Z) (motorola : bool)
  (i : Z) (d : list Z) :
  List.length d = 8%nat -> 0 <= i < length -> length <= 64 ->
  byte_index start_bit motorola i < 8 ->
  exists d',
    (if motorola then insert_motorola_body start_bit length value i d
     else insert_intel_body start_bit value i d) = Returns d' /\
    List.length d' = 8%nat.
Proof.
  intros Hd Hi Hl Hok. pose proof (byte_index_nonneg start_bit motorola i) as Hnn.
  destruct motorola; unfold byte_index in *;
    unfold insert_motorola_body, insert_intel_body; body_returns Hd Hnn.
Qed.

Lemma insert_body_undefined (start_bit length value : Z) (motorola : bool)
  (i : Z) (d : list Z) :
  List.length d = 8%nat -> 0 <= i < length -> length <= 64 ->
  8 <= byte_index start_bit motorola i ->
  (if motorola then insert_motorola_body start_bit length value i d
   else insert_intel_body start_bit value i d) = Undefined.
Proof.
  intros Hd Hi Hl Hbad.
  destruct motorola; unfold byte_index in *;
    unfold insert_motorola_body, insert_intel_body; body_undefined Hd.
Qed.

Lemma loop_if {S : Type} (motorola : bool) (n : nat) (i : Z)
  (f g : Z -> S -> outcome S) (s : S) :
  (if motorola then for_loop n i f s else for_loop n i g s)
  = for_loop n i (fun j x => if motorola then f j x else g j x) s.
Proof. destruct motorola; reflexivity. Qed.

Lemma extract_defined (msg : Can_Message_t) (start_bit length : Z)
  (motorola : bool) :
  wf_msg msg -> 0 <= length <= 64 ->
  ((forall i, 0 <= i < length -> byte_index start_bit motorola i < 8) ->
   exists r, Can_ExtractSignal msg start_bit length motorola = Returns r) /\
  ((exists i, 0 <= i < length /\ 8 <= byte_index start_bit motorola i) ->
   Can_ExtractSignal msg start_bit length motorola = Undefined).
Proof.
  intros Hd Hl. unfold Can_ExtractSignal. rewrite loop_if.
  set (body := fun j x => if motorola then _ else _).
  assert (Hok : forall i s, 0 <= i < length -> True ->
                  byte_index start_bit motorola i < 8 ->
                  exists s', body i s = Returns s' /\ True).
  { intros i s Hi _ Hok.
    destruct (extract_body_returns (Msg.data msg) start_bit length motorola i s)
      as [r Hr]; auto; try lia. eauto. }
  assert (Hbad : forall i s, 0 <= i < length -> True ->
                   ~ byte_index start_bit motorola i < 8 -> body i s = Undefined).
  { intros i s Hi _ Hbad. apply extract_body_undefined; auto. lia. }
  split.
  - intros Hall.
    destruct (loop_returns body (fun _ => True) _ length Hok (Z.to_nat length) 0 0)
      as (r & Hr & _); auto; try lia. { intros; apply Hall; lia. } eauto.
  - intros (j & Hj & Hj8).
    apply (loop_undefined body (fun _ => True) _ length Hok Hbad); auto; try lia.
    exists j. split; lia.
Qed.

Lemma insert_defined (msg : Can_Message_t) (start_bit length value : Z)
  (motorola : bool) :
  wf_msg msg -> 0 <= length <= 64 ->
  ((forall i, 0 <= i < length -> byte_index start_bit motorola i < 8) ->
   exists msg', Can_InsertSignal msg start_bit length value motorola = Returns msg') /\
  ((exists i, 0 <= i < length /\ 8 <= byte_index start_bit motorola i) ->
   Can_InsertSignal msg start_bit length value motorola = Undefined).
Proof.
  intros Hd Hl. unfold Can_InsertSignal. rewrite loop_if.
  set (body := fun j x => if motorola then _ else _).
  assert (Hok : forall i s, 0 <= i < length -> List.length s = 8%nat ->
                  byte_index start_bit motorola i < 8 ->
                  exists s', body i s = Returns s' /\ List.length s' = 8%nat).
  { intros i s Hi Hs Hok. apply insert_body_returns; auto; lia. }
  assert (Hbad : forall i s, 0 <= i < length -> List.length s = 8%nat ->
                   ~ byte_index start_bit motorola i < 8 -> body i s = Undefined).
  { intros i s Hi Hs Hbad. apply insert_body_undefined; auto; lia. }
  split.
  - intros Hall.
    destruct (loop_returns body _ _ length Hok (Z.to_nat length) 0 (Msg.data msg))
      as (r & -> & _); auto; try lia. { intros; apply Hall; lia. }
    simpl. eauto.
  - intros (j & Hj & Hj8).
    rewrite (loop_undefined body _ _ length Hok Hbad); auto; try lia.
    exists j. split; lia.
Qed.

(** C2, as stated, fails: the linear bit indices 2048..2055 are outside the
    64 bits of the payload, yet both calls return normally, having read and
    written payload byte 0, because the byte index 256 is narrowed to 0. *)
Lemma wrapped_geometry_is_not_reported :
  ~ (0 <= 2048 + 0 < 8 * 8) /\
  Can_ExtractSignal (with_data zero_msg [0x81; 0; 0; 0; 0; 0; 0; 0]) 2048 8 false
  = Returns 0x81 /\
  Can_InsertSignal zero_msg 2048 8 0xFF false
  = Returns (with_data zero_msg [0xFF; 0; 0; 0; 0; 0; 0; 0]).
Proof. split; [lia|]. split; vm_compute; reflexivity. Qed.

(** C2, as the code has it: the geometry is not checked.  On an 8-byte
    payload and for [length <= 64], extraction and insertion return
    normally whenever every byte index computed by the loop, after its
    narrowing to 8 bits, is below 8; when some byte index is 8 or more the
    loop indexes [data] out of bounds, which has no defined result and is
    not a fault reported to the caller. *)
Theorem geometry_is_not_checked (msg : Can_Message_t)
  (start_bit length value : Z) (motorola : bool) :
  wf_msg msg -> 0 <= length <= 64 ->
  ((forall i, 0 <= i < length -> byte_index start_bit motorola i < 8) ->
   (exists r, Can_ExtractSignal msg start_bit length motorola = Returns r) /\
   (exists msg', Can_InsertSignal msg start_bit length value motorola = Returns msg')) /\
  ((exists i, 0 <= i < length /\ 8 <= byte_index start_bit motorola i) ->
   Can_ExtractSignal msg start_bit length motorola = Undefined /\
   Can_InsertSignal msg start_bit length value motorola = Undefined).
Proof.
  intros Hd Hl.
  destruct (extract_defined msg start_bit length motorola Hd Hl) as [He1 He2].
  destruct (insert_defined msg start_bit length value motorola Hd Hl) as [Hi1 Hi2].
  split; intros H; split; auto.
Qed.

Lemma geometry_is_not_checked_witness :
  wf_msg zero_msg /\ 0 <= 16 <= 64 /\
  (exists i, 0 <= i < 16 /\ 8 <= byte_index 60 false i) /\
  Can_ExtractSignal zero_msg 60 16 false = Undefined /\
  Can_InsertSignal zero_msg 60 16 0xFFFF false = Undefined.
Proof.
  assert (Hwf : wf_msg zero_msg) by reflexivity.
  assert (Hl : 0 <= 16 <= 64) by lia.
  assert (Hbad : exists i, 0 <= i < 16 /\ 8 <= byte_index 60 false i).
  { exists 4. split; [lia|]. vm_compute. discriminate. }
  split; [exact Hwf|]. split; [exact Hl|]. split; [exact Hbad|].
  exact (proj2 (geometry_is_not_checked zero_msg 60 16 0xFFFF false Hwf Hl) Hbad).
Defined.

(** With [start_bit = 60] and [length = 16] the first four iterations of
    the Intel insertion loop store bits 60..63 into byte 7; the fifth
    computes byte index 8 and has no defined result. *)
Lemma boundary_geometry_partial_write :
  for_loop 4 0 (insert_intel_body 60 0xFFFF) zero_payload
  = Returns [0; 0; 0; 0; 0; 0; 0; 0xF0] /\
  byte_index 60 false 4 = 8 /\
  insert_intel_body 60 0xFFFF 4 [0; 0; 0; 0; 0; 0; 0; 0xF0] = Undefined.
Proof. repeat split. Qed.

(** A field that lies within the payload keeps every byte index below 8. *)
Lemma field_in_payload_byte_index (start_bit length : Z) (motorola : bool) (i : Z) :
  field_in_payload start_bit length motorola -> 0 <= i < length ->
  byte_index start_bit motorola i < 8.
Proof.
  intros [Hl Hs] Hi. unfold byte_index.
  destruct motorola.
  - destruct (addr_in_payload (start_bit - i)) as (-> & -> & Hy & _); lia.
  - destruct (addr_in_payload (start_bit + i)) as (-> & -> & Hy & _); lia.
Qed.

(** ** The order of [float] values *)

Ltac cmp_cases :=
  repeat match goal with
  | H : context [Z.compare ?a ?b] |- _ => destruct (Z.compare_spec a b)
  | |- context [Z.compare ?a ?b] => destruct (Z.compare_spec a b)
  | H : context [Pos.compare_cont Eq ?a ?b] |- _ =>
      change (Pos.compare_cont Eq a b) with (Pos.compare a b) in *;
      destruct (Pos.compare_spec a b)
  | |- context [Pos.compare_cont Eq ?a ?b] =>
      change (Pos.compare_cont Eq a b) with (Pos.compare a b) in *;
      destruct (Pos.compare_spec a b)
  end.

(** A value above [hi] is not below any [lo <= hi]. *)
Lemma f32_gt_not_lt (x lo hi : spec_float) :
  f32_le lo hi = true -> f32_gt x hi = true -> f32_lt x lo = false.
Proof.
  unfold f32_le, f32_gt, f32_lt, SFleb, SFltb.
  destruct x as [sx|sx| |sx mx ex], lo as [sl|sl| |sl ml el],
    hi as [sh|sh| |sh mh eh]; simpl; try discriminate; try reflexivity;
    repeat match goal with s : bool |- _ => destruct s end;
    simpl; try discriminate; try reflexivity;
    intros Hle Hgt; cmp_cases; simpl in *;
    try discriminate; try reflexivity; subst; exfalso; lia.
Qed.

(** ** Sign extension *)

Lemma land_pow2_eqb (x k : Z) :
  0 <= k -> (Z.land x (2 ^ k) =? 0) = negb (Z.testbit x k).
Proof.
  intros Hk. destruct (Z.testbit x k) eqn:Hb; simpl.
  - apply Z.eqb_neq. intros H0.
    assert (Hk' : Z.testbit (Z.land x (2 ^ k)) k = true)
      by (rewrite Z.land_spec, Hb, Z.pow2_bits_eqb, Z.eqb_refl by lia; reflexivity).
    rewrite H0, Z.bits_0 in Hk'. discriminate.
  - apply Z.eqb_eq. apply Z.bits_inj'. intros j Hj.
    rewrite Z.land_spec, Z.pow2_bits_eqb, Z.bits_0 by lia.
    destruct (Z.eqb_spec k j) as [<-|]; [rewrite Hb; reflexivity | apply andb_false_r].
Qed.

Lemma below_sign_bit (x n : Z) :
  0 <= n -> 0 <= x < 2 ^ (n + 1) -> Z.testbit x n = false -> x < 2 ^ n.
Proof.
  intros Hn Hx Hb.
  assert (Hmod : x = x mod 2 ^ n).
  { apply Z.bits_inj'. intros j Hj. destruct (Z.lt_ge_cases j n).
    - rewrite Z.mod_pow2_bits_low by lia. reflexivity.
    - rewrite Z.mod_pow2_bits_high by lia.
      destruct (Z.eq_dec j n) as [->|]; [exact Hb|].
      apply testbit_small with (n + 1); lia. }
  rewrite Hmod. apply Z.mod_pos_bound. apply Z.pow_pos_nonneg; lia.
Qed.

Lemma above_sign_bit (x n : Z) :
  0 <= n -> 0 <= x -> Z.testbit x n = true -> 2 ^ n <= x.
Proof.
  intros Hn Hx Hb. destruct (Z.lt_ge_cases x (2 ^ n)) as [Hlt|]; [|assumption].
  rewrite (testbit_small x n n) in Hb by lia. discriminate.
Qed.

(** [~0ULL << n] for [n < 64]. *)
Lemma shl64_ones (n : Z) :
  0 <= n < 64 ->
  exists ext, shl64 (2 ^ 64 - 1) n = Returns ext /\ ext = 2 ^ 64 - 2 ^ n /\
    forall j, 0 <= j < n -> Z.testbit ext j = false.
Proof.
  intros Hn. unfold shl64.
  destruct (Z.leb_spec 0 n), (Z.ltb_spec n 64); try lia. simpl.
  eexists; split; [reflexivity|].
  assert (Hp : 0 < 2 ^ n <= 2 ^ 63)
    by (split; [apply Z.pow_pos_nonneg | apply Z.pow_le_mono_r]; lia).
  split.
  - unfold u64. rewrite Z.shiftl_mul_pow2 by lia.
    symmetry. apply Z.mod_unique with (2 ^ n - 1); lia.
  - intros j Hj. unfold u64.
    rewrite Z.mod_pow2_bits_low, Z.shiftl_spec_low by lia. reflexivity.
Qed.

Lemma lor_disjoint (x ext n : Z) :
  0 <= x < 2 ^ n -> (forall j, 0 <= j < n -> Z.testbit ext j = false) ->
  Z.lor x ext = x + ext.
Proof.
  intros Hx Hlow.
  assert (Hland : Z.land x ext = 0).
  { apply Z.bits_inj'. intros j Hj. rewrite Z.land_spec, Z.bits_0.
    destruct (Z.lt_ge_cases j n).
    - rewrite Hlow by lia. apply andb_false_r.
    - rewrite (testbit_small x n j) by lia. reflexivity. }
  rewrite <- Z.lxor_lor by exact Hland. symmetry.
  apply Z.add_nocarry_lxor. exact Hland.
Qed.

(** The signed branch computes the two's-complement value of width
    [length], for every width for which its shifts are defined. *)
Lemma sign_extend_spec (raw_value length : Z) :
  1 <= length <= 64 -> 0 <= raw_value < 2 ^ length ->
  (Z.testbit raw_value (length - 1) = true -> length <= 63) ->
  sign_extend raw_value length
  = Returns (if Z.testbit raw_value (length - 1)
             then raw_value - 2 ^ length else raw_value).
Proof.
  intros Hl Hr H63. unfold sign_extend.
  rewrite shl64_1 by lia. simpl. rewrite land_pow2_eqb by lia.
  assert (Hp : 2 ^ length = 2 * 2 ^ (length - 1)).
  { replace length with (Z.succ (length - 1)) at 1 by lia.
    apply Z.pow_succ_r. lia. }
  assert (Hq : 0 < 2 ^ (length - 1) <= 2 ^ 63)
    by (split; [apply Z.pow_pos_nonneg | apply Z.pow_le_mono_r]; lia).
  destruct (Z.testbit raw_value (length - 1)) eqn:Hb; simpl.
  - specialize (H63 eq_refl).
    assert (Hq' : 2 ^ (length - 1) <= 2 ^ 62) by (apply Z.pow_le_mono_r; lia).
    pose proof (above_sign_bit raw_value (length - 1) ltac:(lia) ltac:(lia) Hb).
    destruct (shl64_ones length) as (ext & -> & Hext & Hlow); [lia|]. simpl.
    assert (Hi : i64 raw_value = raw_value).
    { unfold i64, u64. rewrite Z.mod_small by lia.
      destruct (Z.ltb_spec raw_value (2 ^ 63)); lia. }
    rewrite Hi. unfold u64 at 1. rewrite (Z.mod_small raw_value) by lia.
    rewrite (lor_disjoint raw_value ext length) by (auto; lia).
    f_equal. unfold i64, u64. rewrite Z.mod_small by lia.
    destruct (Z.ltb_spec (raw_value + ext) (2 ^ 63)); lia.
  - f_equal.
    pose proof (below_sign_bit raw_value (length - 1) ltac:(lia)
                  ltac:(replace (length - 1 + 1) with length by lia; lia) Hb).
    unfold i64, u64. rewrite Z.mod_small by lia.
    destruct (Z.ltb_spec raw_value (2 ^ 63)); lia.
Qed.

(** The numeric value of a raw field, for every width from 1 to 63 and
    for the unsigned reading of every width from 1 to 64. *)
Lemma numeric_value_spec (raw_value length : Z) (is_signed : bool) :
  1 <= length <= 64 -> 0 <= raw_value < 2 ^ length ->
  (is_signed = true -> length <= 63) ->
  numeric_value raw_value length is_signed
  = Returns (if is_signed && Z.testbit raw_value (length - 1)
             then raw_value - 2 ^ length else raw_value).
Proof.
  intros Hl Hr Hs. unfold numeric_value. destruct is_signed; [|reflexivity].
  simpl. apply sign_extend_spec; auto.
Qed.

Lemma numeric_value_0xFF :
  numeric_value 0xFF 8 true = Returns (-1) /\
  numeric_value 0xFF 8 false = Returns 255.
Proof. split; reflexivity. Qed.

(** C4 at the width the code misses: for [length = 64] and a raw value
    whose bit 63 is set, the signed branch evaluates [~0ULL << 64], a shift
    by the full width of the operand, so the conversion has no defined
    result where the claim requires the numeric value [raw - 2 ^ 64]. *)
Theorem signed_width_64_is_undefined :
  numeric_value 0x8000000000000000 64 true = Undefined /\
  forall s f o lo hi,
    Can_SignalToPhysical 0x8000000000000000
      {| Sig.start_bit := s; Sig.length := 64; Sig.factor := f; Sig.offset := o;
         Sig.min_value := lo; Sig.max_value := hi |} true = Undefined.
Proof. split; [reflexivity | intros; reflexivity]. Qed.

(** ** Scaling and range check *)

Lemma Can_SignalToPhysical_numeric (raw_value : Z) (signal : Can_Signal_t)
  (is_signed : bool) :
  Can_SignalToPhysical raw_value signal is_signed
  = let* numeric := numeric_value raw_value (Sig.length signal) is_signed in
    Returns (range_check signal (scaled signal numeric)).
Proof.
  unfold Can_SignalToPhysical, numeric_value, scaled.
  destruct is_signed; [|reflexivity].
  destruct (sign_extend raw_value (Sig.length signal)); reflexivity.
Qed.

(** C5. Scaling then clamping: for every raw value, length, signedness and
    descriptor, the physical value is [numeric * factor + offset] and the
    result is that value after the range check, which is applied to the
    scaled value: a value below [min_value] becomes [min_value], a value
    above [max_value] becomes [max_value] (for a descriptor with
    [min_value <= max_value]), any other value is returned as it is.  For
    the speed signal (factor 0.01, offset 0, range 0..300) the unsigned raw
    value 65535 scales to the [float] nearest to 655.35 and is clamped to
    300.0. *)
Theorem scaling_then_clamping :
  (forall (raw_value : Z) (signal : Can_Signal_t) (is_signed : bool),
     Can_SignalToPhysical raw_value signal is_signed
     = let* numeric := numeric_value raw_value (Sig.length signal) is_signed in
       Returns (range_check signal (scaled signal numeric))) /\
  (forall (signal : Can_Signal_t) (physical_value : spec_float),
     (f32_lt physical_value (Sig.min_value signal) = true ->
      range_check signal physical_value = Sig.min_value signal) /\
     (f32_le (Sig.min_value signal) (Sig.max_value signal) = true ->
      f32_gt physical_value (Sig.max_value signal) = true ->
      range_check signal physical_value = Sig.max_value signal) /\
     (f32_lt physical_value (Sig.min_value signal) = false ->
      f32_gt physical_value (Sig.max_value signal) = false ->
      range_check signal physical_value = physical_value)) /\
  scaled speed_signal 65535 = S754_finite false 10737254 (-14) /\
  f32_gt (scaled speed_signal 65535) f32_300_0 = true /\
  Can_SignalToPhysical 65535 speed_signal false = Returns f32_300_0.
Proof.
  split; [exact Can_SignalToPhysical_numeric|].
  split; [|repeat split; vm_compute; reflexivity].
  intros signal physical_value. unfold range_check. repeat split.
  - intros ->. reflexivity.
  - intros Hle Hgt. rewrite (f32_gt_not_lt _ _ _ Hle Hgt), Hgt. reflexivity.
  - intros -> ->. reflexivity.
Qed.

Lemma scaling_then_clamping_witness :
  f32_le (Sig.min_value speed_signal) (Sig.max_value speed_signal) = true /\
  f32_gt (scaled speed_signal 65535) (Sig.max_value speed_signal) = true /\
  range_check speed_signal (scaled speed_signal 65535)
  = Sig.max_value speed_signal.
Proof.
  assert (Hle : f32_le (Sig.min_value speed_signal) (Sig.max_value speed_signal)
                = true) by reflexivity.
  assert (Hgt : f32_gt (scaled speed_signal 65535) (Sig.max_value speed_signal)
                = true) by reflexivity.
  split; [exact Hle|]. split; [exact Hgt|].
  exact (proj1 (proj2 (proj1 (proj2 scaling_then_clamping) speed_signal
                         (scaled speed_signal 65535))) Hle Hgt).
Defined.

(** C6, as stated, fails: no observation of the result of
    [Can_SignalToPhysical] tells whether the value was clamped.  For the
    speed signal, raw 65535 is clamped to 300.0 and raw 30000 scales to
    exactly 300.0; the two calls return the same value. *)
Lemma clamping_is_not_observable :
  ~ exists observe : outcome spec_float -> bool,
      forall (raw_value : Z) (signal : Can_Signal_t) (is_signed : bool)
             (numeric : Z),
        numeric_value raw_value (Sig.length signal) is_signed = Returns numeric ->
        observe (Can_SignalToPhysical raw_value signal is_signed)
        = clamped signal (scaled signal numeric).
Proof.
  intros [observe H].
  pose proof (H 65535 speed_signal false 65535 eq_refl) as Hhigh.
  pose proof (H 30000 speed_signal false 30000 eq_refl) as Hexact.
  vm_compute in Hhigh, Hexact. congruence.
Qed.

(** C6, as the code has it: [Can_SignalToPhysical] returns the physical
    value alone.  When the range check clamps, the result is the bound
    [min_value] or [max_value]; when it does not, the result is the scaled
    value; a clamped result is equal to an exact result that lies on the
    bound, as for raw 65535 and raw 30000 of the speed signal. *)
Theorem clamped_result_is_the_bound :
  (forall (raw_value : Z) (signal : Can_Signal_t) (is_signed : bool) (numeric : Z),
     numeric_value raw_value (Sig.length signal) is_signed = Returns numeric ->
     exists result,
       Can_SignalToPhysical raw_value signal is_signed = Returns result /\
       (clamped signal (scaled signal numeric) = true ->
        result = Sig.min_value signal \/ result = Sig.max_value signal) /\
       (clamped signal (scaled signal numeric) = false ->
        result = scaled signal numeric)) /\
  clamped speed_signal (scaled speed_signal 65535) = true /\
  clamped speed_signal (scaled speed_signal 30000) = false /\
  Can_SignalToPhysical 65535 speed_signal false
  = Can_SignalToPhysical 30000 speed_signal false.
Proof.
  split; [|repeat split; vm_compute; reflexivity].
  intros raw_value signal is_signed numeric Hn.
  rewrite Can_SignalToPhysical_numeric, Hn. simpl.
  eexists; split; [reflexivity|].
  unfold clamped, range_check.
  destruct (f32_lt (scaled signal numeric) (Sig.min_value signal)),
    (f32_gt (scaled signal numeric) (Sig.max_value signal));
    simpl; split; intros; try discriminate; auto.
Qed.

Lemma clamped_result_is_the_bound_witness :
  numeric_value 65535 (Sig.length speed_signal) false = Returns 65535 /\
  exists result,
    Can_SignalToPhysical 65535 speed_signal false = Returns result /\
    (clamped speed_signal (scaled speed_signal 65535) = true ->
     result = Sig.min_value speed_signal \/ result = Sig.max_value speed_signal) /\
    (clamped speed_signal (scaled speed_signal 65535) = false ->
     result = scaled speed_signal 65535).
Proof.
  split; [reflexivity|].
  apply (proj1 clamped_result_is_the_bound 65535 speed_signal false 65535).
  reflexivity.
Defined.

(** ** Building the engine speed message *)

Lemma check_range_sound (P : Z -> bool) (n : nat) : forall lo,
  check_range lo n P = true ->
  forall z, lo <= z < lo + Z.of_nat n -> P z = true.
Proof.
  induction n as [|n IH]; intros lo Hc z Hz; [lia|].
  simpl in Hc. apply andb_true_iff in Hc as [Hlo Hrest].
  destruct (Z.eq_dec z lo) as [->|]; [exact Hlo|].
  apply (IH (lo + 1)); [exact Hrest | lia].
Qed.

(** [(uint64_t)(rpm / 0.25f)] is [4 * rpm] for every [uint16_t] value. *)
Lemma rpm_to_raw_exact (rpm : Z) :
  0 <= rpm < 65536 ->
  f32_to_u64 (f32_div (f32_of_Z rpm) f32_0_25) = Returns (4 * rpm).
Proof.
  intros Hr.
  assert (Hall : check_range 0 (Z.to_nat 65536)
                   (fun z => match f32_to_u64 (f32_div (f32_of_Z z) f32_0_25) with
                             | Returns v => v =? 4 * z
                             | Undefined => false
                             end) = true) by (vm_compute; reflexivity).
  pose proof (check_range_sound _ _ _ Hall rpm ltac:(lia)) as Hz.
  simpl in Hz.
  destruct (f32_to_u64 (f32_div (f32_of_Z rpm) f32_0_25)); [|discriminate].
  apply Z.eqb_eq in Hz. congruence.
Qed.

(** C9. High-side clamping when the raw field is built: for every
    [rpm > 8000], [Can_CreateEngineRpmMessage] inserts the raw value 32000,
    the encoding of the maximum 8000 at factor 0.25, into the message; the
    field then holds 32000, not a wrapped or truncated value. *)
Theorem rpm_above_maximum_inserts_32000 (msg : Can_Message_t) (rpm : Z) :
  8000 < rpm < 65536 ->
  Can_CreateEngineRpmMessage msg rpm = Can_InsertSignal rpm_header 16 16 32000 false /\
  Can_CreateEngineRpmMessage msg rpm
  = Returns (with_data rpm_header [0; 0; 0x00; 0x7D; 0; 0; 0; 0]) /\
  (let* msg' := Can_CreateEngineRpmMessage msg rpm in
   Can_ExtractSignal msg' 16 16 false) = Returns 32000.
Proof.
  intros Hr.
  assert (Heq : Can_CreateEngineRpmMessage msg rpm
                = Can_InsertSignal rpm_header 16 16 32000 false).
  { unfold Can_CreateEngineRpmMessage. rewrite rpm_to_raw_exact by lia. simpl.
    destruct (Z.gtb_spec rpm 8000); [reflexivity | lia]. }
  rewrite Heq. repeat split; reflexivity.
Qed.

Lemma rpm_above_maximum_inserts_32000_witness :
  8000 < 9000 < 65536 /\
  Can_CreateEngineRpmMessage zero_msg 9000
  = Returns (with_data rpm_header [0; 0; 0x00; 0x7D; 0; 0; 0; 0]).
Proof.
  split; [lia|].
  apply (rpm_above_maximum_inserts_32000 zero_msg 9000). lia.
Defined.


(** * Further properties of the codec *)

(** ** What extraction returns *)

Lemma extract_bits (msg : Can_Message_t) (start_bit length : Z) (motorola : bool) :
  wf_msg msg -> field_in_payload start_bit length motorola ->
  exists r,
    Can_ExtractSignal msg start_bit length motorola = Returns r /\
    forall k, 0 <= k ->
      Z.testbit r k
      = (k <? length)
        && payload_bit (Msg.data msg)
             (field_index start_bit motorola (value_index length motorola k)).
Proof.
  intros Hwf Hf. unfold Can_ExtractSignal.
  destruct (extract_loop_spec (Msg.data msg) start_bit length motorola Hwf Hf)
    as (r & Hr & Hbits).
  exists r. split; [destruct motorola; exact Hr | exact Hbits].
Qed.

Lemma insert_bits (msg : Can_Message_t) (start_bit length value : Z)
  (motorola : bool) :
  wf_msg msg -> field_in_payload start_bit length motorola ->
  exists msg',
    Can_InsertSignal msg start_bit length value motorola = Returns msg' /\
    wf_msg msg' /\
    (forall p, 0 <= p < 64 ->
       (forall j, 0 <= j < length -> p <> field_index start_bit motorola j) ->
       payload_bit (Msg.data msg') p = payload_bit (Msg.data msg) p) /\
    (forall j, 0 <= j < length ->
       payload_bit (Msg.data msg') (field_index start_bit motorola j)
       = Z.testbit value (value_index length motorola j)).
Proof.
  intros Hwf Hf. unfold Can_InsertSignal.
  destruct (insert_loop_spec (Msg.data msg) start_bit length value motorola Hwf Hf)
    as (d' & Hins & Hd' & Hout & Hin).
  exists (with_data msg d').
  split; [destruct motorola; rewrite Hins; reflexivity|].
  split; [exact Hd'|]. split; [exact Hout | exact Hin].
Qed.

Lemma low_bits_mod (r length : Z) :
  0 <= length ->
  (forall k, length <= k -> Z.testbit r k = false) -> r = r mod 2 ^ length.
Proof.
  intros Hl Hhigh. apply Z.bits_inj'. intros k Hk.
  destruct (Z.lt_ge_cases k length).
  - rewrite Z.mod_pow2_bits_low by lia. reflexivity.
  - rewrite Z.mod_pow2_bits_high by lia. apply Hhigh. lia.
Qed.

Lemma value_index_range (length : Z) (motorola : bool) (k : Z) :
  0 <= k < length -> 0 <= value_index length motorola k < length.
Proof. unfold value_index. destruct motorola; lia. Qed.

Lemma below_pow2_of_bits (r length : Z) :
  0 <= length ->
  (forall k, length <= k -> Z.testbit r k = false) -> 0 <= r < 2 ^ length.
Proof.
  intros Hl Hhigh. rewrite (low_bits_mod r length Hl Hhigh).
  apply Z.mod_pos_bound, Z.pow_pos_nonneg; lia.
Qed.

(** The extracted value has no bit at or above position [length]: it is a
    number below [2 ^ length], whatever the payload holds. *)
Theorem extract_below_pow2 (msg : Can_Message_t) (start_bit length : Z)
  (motorola : bool) :
  wf_msg msg -> field_in_payload start_bit length motorola ->
  exists r,
    Can_ExtractSignal msg start_bit length motorola = Returns r /\
    0 <= r < 2 ^ length.
Proof.
  intros Hwf Hf. destruct (extract_bits msg start_bit length motorola Hwf Hf)
    as (r & Hr & Hbits).
  exists r. split; [exact Hr|].
  destruct Hf as [Hl _]. apply below_pow2_of_bits; [lia|].
  intros k Hk. rewrite Hbits by lia.
  destruct (Z.ltb_spec k length); [lia | reflexivity].
Qed.

Lemma extract_below_pow2_witness :
  wf_msg (with_data zero_msg [255; 255; 255; 255; 255; 255; 255; 255]) /\
  field_in_payload 12 5 true /\
  exists r,
    Can_ExtractSignal (with_data zero_msg [255; 255; 255; 255; 255; 255; 255; 255])
      12 5 true = Returns r /\
    0 <= r < 2 ^ 5.
Proof.
  assert (Hwf : wf_msg (with_data zero_msg [255; 255; 255; 255; 255; 255; 255; 255]))
    by reflexivity.
  assert (Hf : field_in_payload 12 5 true) by (unfold field_in_payload; lia).
  split; [exact Hwf|]. split; [exact Hf|].
  exact (extract_below_pow2 _ 12 5 true Hwf Hf).
Defined.

(** Insertion stores the low [length] bits of the value: after the call,
    the payload bit addressed at signal position [j] holds bit [j] of the
    value in Intel order and bit [length - 1 - j] in Motorola order. *)
Theorem insert_writes_value_bits (msg : Can_Message_t)
  (start_bit length value : Z) (motorola : bool) :
  wf_msg msg -> field_in_payload start_bit length motorola ->
  exists msg',
    Can_InsertSignal msg start_bit length value motorola = Returns msg' /\
    forall j, 0 <= j < length ->
      payload_bit (Msg.data msg') (field_index start_bit motorola j)
      = Z.testbit value (if motorola then length - 1 - j else j).
Proof.
  intros Hwf Hf.
  destruct (insert_bits msg start_bit length value motorola Hwf Hf)
    as (msg' & Hr & _ & _ & Hin).
  exists msg'. split; [exact Hr | exact Hin].
Qed.

Lemma insert_writes_value_bits_witness :
  wf_msg zero_msg /\ field_in_payload 15 16 true /\
  exists msg',
    Can_InsertSignal zero_msg 15 16 0x1234 true = Returns msg' /\
    forall j, 0 <= j < 16 ->
      payload_bit (Msg.data msg') (field_index 15 true j)
      = Z.testbit 0x1234 (16 - 1 - j).
Proof.
  assert (Hwf : wf_msg zero_msg) by reflexivity.
  assert (Hf : field_in_payload 15 16 true) by (unfold field_in_payload; lia).
  split; [exact Hwf|]. split; [exact Hf|].
  exact (insert_writes_value_bits zero_msg 15 16 0x1234 true Hwf Hf).
Defined.

(** Insertion ignores the bits of the value at and above position
    [length]: extracting after inserting any value returns the value
    reduced modulo [2 ^ length], from any 8-byte payload. *)
Theorem roundtrip_truncates_value (msg : Can_Message_t)
  (start_bit length value : Z) (motorola : bool) :
  wf_msg msg -> field_in_payload start_bit length motorola ->
  (let* msg' := Can_InsertSignal msg start_bit length value motorola in
   Can_ExtractSignal msg' start_bit length motorola)
  = Returns (value mod 2 ^ length).
Proof.
  intros Hwf Hf.
  destruct (insert_bits msg start_bit length value motorola Hwf Hf)
    as (msg' & -> & Hwf' & _ & Hin).
  destruct (extract_bits msg' start_bit length motorola Hwf' Hf)
    as (r & Hr & Hbits).
  simpl. rewrite Hr. f_equal. destruct Hf as [Hl _].
  apply Z.bits_inj'. intros k Hk. rewrite Hbits by lia.
  destruct (Z.ltb_spec k length); simpl.
  - rewrite Hin by (apply value_index_range; lia).
    rewrite value_index_involutive, Z.mod_pow2_bits_low by lia. reflexivity.
  - rewrite Z.mod_pow2_bits_high by lia. reflexivity.
Qed.

Lemma roundtrip_truncates_value_witness :
  wf_msg zero_msg /\ field_in_payload 4 8 false /\
  (let* msg' := Can_InsertSignal zero_msg 4 8 0x1FF false in
   Can_ExtractSignal msg' 4 8 false) = Returns (0x1FF mod 2 ^ 8).
Proof.
  assert (Hwf : wf_msg zero_msg) by reflexivity.
  assert (Hf : field_in_payload 4 8 false) by (unfold field_in_payload; lia).
  split; [exact Hwf|]. split; [exact Hf|].
  exact (roundtrip_truncates_value zero_msg 4 8 0x1FF false Hwf Hf).
Defined.

(** Signals in disjoint bit ranges do not interfere: inserting one field
    leaves the value extracted from any field that shares no payload bit
    with it unchanged, whatever the byte orders of the two. *)
Theorem insert_keeps_disjoint_field (msg : Can_Message_t)
  (start_a length_a : Z) (motorola_a : bool)
  (start_b length_b value_b : Z) (motorola_b : bool) :
  wf_msg msg ->
  field_in_payload start_a length_a motorola_a ->
  field_in_payload start_b length_b motorola_b ->
  fields_disjoint start_a length_a motorola_a start_b length_b motorola_b ->
  (let* msg' := Can_InsertSignal msg start_b length_b value_b motorola_b in
   Can_ExtractSignal msg' start_a length_a motorola_a)
  = Can_ExtractSignal msg start_a length_a motorola_a.
Proof.
  intros Hwf Ha Hb Hdis.
  destruct (insert_bits msg start_b length_b value_b motorola_b Hwf Hb)
    as (msg' & -> & Hwf' & Hout & _).
  destruct (extract_bits msg' start_a length_a motorola_a Hwf' Ha)
    as (r' & Hr' & Hbits').
  destruct (extract_bits msg start_a length_a motorola_a Hwf Ha)
    as (r & Hr & Hbits).
  simpl. rewrite Hr', Hr. f_equal.
  apply Z.bits_inj'. intros k Hk. rewrite Hbits', Hbits by lia.
  destruct (Z.ltb_spec k length_a); [simpl | reflexivity].
  apply Hout.
  - apply field_index_range with length_a; [exact Ha|].
    apply value_index_range. lia.
  - intros j Hj. apply Hdis; [apply value_index_range; lia | exact Hj].
Qed.

Lemma insert_keeps_disjoint_field_witness :
  wf_msg rpm_header /\ field_in_payload 0 16 false /\
  field_in_payload 31 16 true /\ fields_disjoint 0 16 false 31 16 true /\
  (let* msg' := Can_InsertSignal rpm_header 31 16 0xBEEF true in
   Can_ExtractSignal msg' 0 16 false)
  = Can_ExtractSignal rpm_header 0 16 false.
Proof.
  assert (Hwf : wf_msg rpm_header) by reflexivity.
  assert (Ha : field_in_payload 0 16 false) by (unfold field_in_payload; lia).
  assert (Hb : field_in_payload 31 16 true) by (unfold field_in_payload; lia).
  assert (Hdis : fields_disjoint 0 16 false 31 16 true).
  { intros i j Hi Hj. unfold field_index, mirror.
    pose proof (Z.div_mod (31 - j) 8 ltac:(lia)).
    pose proof (Z.mod_pos_bound (31 - j) 8 ltac:(lia)).
    assert (2 <= (31 - j) / 8) by (apply Z.div_le_lower_bound; lia).
    lia. }
  split; [exact Hwf|]. split; [exact Ha|]. split; [exact Hb|].
  split; [exact Hdis|].
  exact (insert_keeps_disjoint_field rpm_header 0 16 false 31 16 0xBEEF true
           Hwf Ha Hb Hdis).
Defined.

(** ** Payloads as lists of bytes *)

Lemma for_loop_inv {S : Type} (body : Z -> S -> outcome S) (Inv : S -> Prop) :
  (forall i s s', Inv s -> body i s = Returns s' -> Inv s') ->
  forall n i s s', Inv s -> for_loop n i body s = Returns s' -> Inv s'.
Proof.
  intros Hbody. induction n as [|n IH]; intros i s s' Hs Hl; simpl in Hl.
  - injection Hl as <-. exact Hs.
  - destruct (body i s) as [s1|] eqn:Hb; simpl in Hl; [|discriminate].
    apply (IH (i + 1) s1); [apply (Hbody i s); assumption | exact Hl].
Qed.

Lemma modify_data_bytes (d d' : list Z) (byte_idx : Z) (f : Z -> Z) :
  Forall (fun b => 0 <= b < 256) d -> modify_data d byte_idx f = Returns d' ->
  Forall (fun b => 0 <= b < 256) d'.
Proof.
  unfold modify_data. intros Hd H.
  destruct (read_data d byte_idx) as [b|]; simpl in H; [|discriminate].
  injection H as <-. apply Forall_insert; [exact Hd|].
  unfold u8. change (2 ^ 8) with 256. apply Z.mod_pos_bound. lia.
Qed.

Lemma insert_bytes (msg msg' : Can_Message_t) (start_bit length value : Z)
  (motorola : bool) :
  Forall (fun b => 0 <= b < 256) (Msg.data msg) ->
  Can_InsertSignal msg start_bit length value motorola = Returns msg' ->
  Forall (fun b => 0 <= b < 256) (Msg.data msg').
Proof.
  unfold Can_InsertSignal. rewrite loop_if. intros Hd H.
  destruct (for_loop _ _ _ _) as [d'|] eqn:Hl; simpl in H; [|discriminate].
  injection H as <-. simpl.
  apply (for_loop_inv _ (Forall (fun b => 0 <= b < 256))) in Hl; [exact Hl | | exact Hd].
  intros i s s' Hs Hb.
  destruct motorola; unfold insert_motorola_body, insert_intel_body in Hb;
    destruct (shr64 _ _); simpl in Hb; try discriminate;
    destruct (_ =? 0); apply (modify_data_bytes _ _ _ _ Hs Hb).
Qed.

Lemma byte_bits_inj (b b' : Z) :
  0 <= b < 256 -> 0 <= b' < 256 ->
  (forall k, 0 <= k < 8 -> Z.testbit b k = Z.testbit b' k) -> b = b'.
Proof.
  intros Hb Hb' Hbits. apply Z.bits_inj'. intros k Hk.
  destruct (Z.lt_ge_cases k 8); [apply Hbits; lia|].
  rewrite (testbit_small b 8 k), (testbit_small b' 8 k) by (simpl; lia).
  reflexivity.
Qed.

Lemma payload_bit_lookup (d : list Z) (i : nat) (b k : Z) :
  d !! i = Some b -> 0 <= k < 8 ->
  payload_bit d (8 * Z.of_nat i + k) = Z.testbit b k.
Proof.
  intros Hlk Hk. unfold payload_bit.
  replace ((8 * Z.of_nat i + k) / 8) with (Z.of_nat i)
    by (apply Z.div_unique with k; lia).
  replace ((8 * Z.of_nat i + k) mod 8) with k
    by (apply Z.mod_unique with (Z.of_nat i); lia).
  rewrite Nat2Z.id, Hlk. reflexivity.
Qed.

(** Two payloads with the same 64 bits are the same list of bytes. *)
Lemma payload_ext (d d' : list Z) :
  payload_bytes d -> payload_bytes d' ->
  (forall p, 0 <= p < 64 -> payload_bit d p = payload_bit d' p) -> d = d'.
Proof.
  intros [Hl Hb] [Hl' Hb'] Hbits. apply list_eq. intros i.
  destruct (d !! i) as [b|] eqn:Hi.
  - pose proof (lookup_lt_Some _ _ _ Hi) as Hlt.
    destruct (lookup_lt_is_Some_2 d' i) as [b' Hi']; [lia|].
    rewrite Hi'. f_equal. apply byte_bits_inj.
    + exact (Forall_lookup_1 _ _ _ _ Hb Hi).
    + exact (Forall_lookup_1 _ _ _ _ Hb' Hi').
    + intros k Hk. rewrite <- (payload_bit_lookup d i b k Hi Hk).
      rewrite <- (payload_bit_lookup d' i b' k Hi' Hk). apply Hbits. lia.
  - apply lookup_ge_None in Hi. symmetry. apply lookup_ge_None. lia.
Qed.

Lemma with_data_same (msg : Can_Message_t) : with_data msg (Msg.data msg) = msg.
Proof. destruct msg. reflexivity. Qed.

Lemma insert_result_data (msg msg' : Can_Message_t) (start_bit length value : Z)
  (motorola : bool) :
  Can_InsertSignal msg start_bit length value motorola = Returns msg' ->
  msg' = with_data msg (Msg.data msg').
Proof.
  unfold Can_InsertSignal. intros H.
  destruct (if motorola then _ else _) as [d|]; simpl in H; [|discriminate].
  injection H as <-. reflexivity.
Qed.

(** Whether linear index [p] is addressed by the field is decidable by
    looking for its signal position. *)
Lemma field_position (start_bit length : Z) (motorola : bool) (p : Z) :
  (exists j, 0 <= j < length /\ p = field_index start_bit motorola j) \/
  (forall j, 0 <= j < length -> p <> field_index start_bit motorola j).
Proof.
  unfold field_index. destruct motorola.
  - destruct (Z_lt_dec (start_bit - mirror p) 0);
      [right | destruct (Z_lt_dec (start_bit - mirror p) length); [left | right]].
    + intros j Hj ->. unfold mirror in *. div8 (start_bit - j).
      div8 (8 * ((start_bit - j) / 8) + (7 - (start_bit - j) mod 8)).
      Z.div_mod_to_equations. lia.
    + exists (start_bit - mirror p). split; [lia|].
      unfold mirror. Z.div_mod_to_equations. lia.
    + intros j Hj ->. unfold mirror in *. Z.div_mod_to_equations. lia.
  - destruct (Z_lt_dec (p - start_bit) 0);
      [right | destruct (Z_lt_dec (p - start_bit) length); [left | right]].
    + intros j Hj ->. lia.
    + exists (p - start_bit). split; lia.
    + intros j Hj ->. lia.
Qed.

(** Writing back what was read changes nothing: inserting the value just
    extracted, with the same geometry, returns the message unchanged. *)
Theorem insert_extracted_is_identity (msg : Can_Message_t)
  (start_bit length : Z) (motorola : bool) :
  payload_bytes (Msg.data msg) -> field_in_payload start_bit length motorola ->
  (let* value := Can_ExtractSignal msg start_bit length motorola in
   Can_InsertSignal msg start_bit length value motorola) = Returns msg.
Proof.
  intros Hpb Hf. pose proof Hpb as [Hwf Hbytes].
  destruct (extract_bits msg start_bit length motorola Hwf Hf) as (r & -> & Hbits).
  destruct (insert_bits msg start_bit length r motorola Hwf Hf)
    as (msg' & Hins & Hwf' & Hout & Hin).
  simpl. rewrite Hins. f_equal.
  rewrite (insert_result_data _ _ _ _ _ _ Hins).
  rewrite <- (with_data_same msg) at 2. f_equal.
  apply payload_ext; [split; [exact Hwf' | exact (insert_bytes _ _ _ _ _ _ Hbytes Hins)]
                     | exact Hpb |].
  intros p Hp.
  destruct (field_position start_bit length motorola p) as [(j & Hj & ->)|Hfree].
  - rewrite Hin by exact Hj.
    pose proof (value_index_range length motorola j Hj).
    rewrite Hbits by lia. rewrite value_index_involutive.
    destruct (Z.ltb_spec (value_index length motorola j) length); [reflexivity | lia].
  - apply Hout; assumption.
Qed.

Lemma insert_extracted_is_identity_witness :
  payload_bytes (Msg.data (with_data rpm_header [0x12; 0x34; 0x56; 0x78; 0x9A; 0xBC; 0xDE; 0xF0])) /\
  field_in_payload 27 13 true /\
  (let* value :=
     Can_ExtractSignal
       (with_data rpm_header [0x12; 0x34; 0x56; 0x78; 0x9A; 0xBC; 0xDE; 0xF0])
       27 13 true in
   Can_InsertSignal
     (with_data rpm_header [0x12; 0x34; 0x56; 0x78; 0x9A; 0xBC; 0xDE; 0xF0])
     27 13 value true)
  = Returns (with_data rpm_header [0x12; 0x34; 0x56; 0x78; 0x9A; 0xBC; 0xDE; 0xF0]).
Proof.
  assert (Hpb : payload_bytes
                  (Msg.data (with_data rpm_header
                               [0x12; 0x34; 0x56; 0x78; 0x9A; 0xBC; 0xDE; 0xF0]))).
  { split; [reflexivity|]. simpl. repeat constructor; lia. }
  assert (Hf : field_in_payload 27 13 true) by (unfold field_in_payload; lia).
  split; [exact Hpb|]. split; [exact Hf|].
  exact (insert_extracted_is_identity _ 27 13 true Hpb Hf).
Defined.

Lemma fields_disjoint_sym (start_a length_a : Z) (motorola_a : bool)
  (start_b length_b : Z) (motorola_b : bool) :
  fields_disjoint start_a length_a motorola_a start_b length_b motorola_b ->
  fields_disjoint start_b length_b motorola_b start_a length_a motorola_a.
Proof. intros H i j Hi Hj Heq. apply (H j i Hj Hi). symmetry. exact Heq. Qed.

(** The payload bits after two insertions into disjoint fields. *)
Lemma two_inserts_bits (msg : Can_Message_t)
  (start_a length_a value_a : Z) (motorola_a : bool)
  (start_b length_b value_b : Z) (motorola_b : bool) :
  payload_bytes (Msg.data msg) ->
  field_in_payload start_a length_a motorola_a ->
  field_in_payload start_b length_b motorola_b ->
  fields_disjoint start_a length_a motorola_a start_b length_b motorola_b ->
  exists msg2,
    (let* msg1 := Can_InsertSignal msg start_a length_a value_a motorola_a in
     Can_InsertSignal msg1 start_b length_b value_b motorola_b) = Returns msg2 /\
    msg2 = with_data msg (Msg.data msg2) /\
    payload_bytes (Msg.data msg2) /\
    (forall j, 0 <= j < length_a ->
       payload_bit (Msg.data msg2) (field_index start_a motorola_a j)
       = Z.testbit value_a (value_index length_a motorola_a j)) /\
    (forall j, 0 <= j < length_b ->
       payload_bit (Msg.data msg2) (field_index start_b motorola_b j)
       = Z.testbit value_b (value_index length_b motorola_b j)) /\
    (forall p, 0 <= p < 64 ->
       (forall j, 0 <= j < length_a -> p <> field_index start_a motorola_a j) ->
       (forall j, 0 <= j < length_b -> p <> field_index start_b motorola_b j) ->
       payload_bit (Msg.data msg2) p = payload_bit (Msg.data msg) p).
Proof.
  intros [Hwf Hbytes] Ha Hb Hdis.
  destruct (insert_bits msg start_a length_a value_a motorola_a Hwf Ha)
    as (msg1 & H1 & Hwf1 & Hout1 & Hin1).
  destruct (insert_bits msg1 start_b length_b value_b motorola_b Hwf1 Hb)
    as (msg2 & H2 & Hwf2 & Hout2 & Hin2).
  exists msg2. rewrite H1. simpl. split; [exact H2|].
  pose proof (insert_bytes _ _ _ _ _ _ Hbytes H1) as Hbytes1.
  pose proof (insert_bytes _ _ _ _ _ _ Hbytes1 H2) as Hbytes2.
  split.
  { rewrite (insert_result_data _ _ _ _ _ _ H2) at 1.
    rewrite (insert_result_data _ _ _ _ _ _ H1). reflexivity. }
  split; [split; assumption|]. split; [|split].
  - intros j Hj. rewrite Hout2.
    + apply Hin1. exact Hj.
    + apply field_index_range with length_a; assumption.
    + intros i Hi. apply Hdis; assumption.
  - exact Hin2.
  - intros p Hp Hfa Hfb. rewrite Hout2 by assumption. apply Hout1; assumption.
Qed.

(** Packing order does not matter: inserting two signals whose fields
    share no payload bit gives the same message in either order. *)
Theorem inserts_into_disjoint_fields_commute (msg : Can_Message_t)
  (start_a length_a value_a : Z) (motorola_a : bool)
  (start_b length_b value_b : Z) (motorola_b : bool) :
  payload_bytes (Msg.data msg) ->
  field_in_payload start_a length_a motorola_a ->
  field_in_payload start_b length_b motorola_b ->
  fields_disjoint start_a length_a motorola_a start_b length_b motorola_b ->
  (let* msg1 := Can_InsertSignal msg start_a length_a value_a motorola_a in
   Can_InsertSignal msg1 start_b length_b value_b motorola_b)
  = (let* msg1 := Can_InsertSignal msg start_b length_b value_b motorola_b in
     Can_InsertSignal msg1 start_a length_a value_a motorola_a).
Proof.
  intros Hpb Ha Hb Hdis.
  destruct (two_inserts_bits msg start_a length_a value_a motorola_a
              start_b length_b value_b motorola_b Hpb Ha Hb Hdis)
    as (m & -> & Hm & Hpm & Hma & Hmb & Hmo).
  destruct (two_inserts_bits msg start_b length_b value_b motorola_b
              start_a length_a value_a motorola_a Hpb Hb Ha
              (fields_disjoint_sym _ _ _ _ _ _ Hdis))
    as (m' & -> & Hm' & Hpm' & Hmb' & Hma' & Hmo').
  f_equal. rewrite Hm, Hm'. f_equal. apply payload_ext; try assumption.
  intros p Hp.
  destruct (field_position start_a length_a motorola_a p) as [(j & Hj & ->)|Hfa].
  - rewrite Hma, Hma' by exact Hj. reflexivity.
  - destruct (field_position start_b length_b motorola_b p) as [(j & Hj & ->)|Hfb].
    + rewrite Hmb, Hmb' by exact Hj. reflexivity.
    + rewrite Hmo, Hmo' by assumption. reflexivity.
Qed.

Lemma inserts_into_disjoint_fields_commute_witness :
  payload_bytes (Msg.data rpm_header) /\ field_in_payload 0 16 false /\
  field_in_payload 31 16 true /\ fields_disjoint 0 16 false 31 16 true /\
  (let* msg1 := Can_InsertSignal rpm_header 0 16 0x1234 false in
   Can_InsertSignal msg1 31 16 0xBEEF true)
  = (let* msg1 := Can_InsertSignal rpm_header 31 16 0xBEEF true in
     Can_InsertSignal msg1 0 16 0x1234 false).
Proof.
  assert (Hpb : payload_bytes (Msg.data rpm_header)).
  { split; [reflexivity|]. simpl. repeat constructor; lia. }
  assert (Ha : field_in_payload 0 16 false) by (unfold field_in_payload; lia).
  assert (Hb : field_in_payload 31 16 true) by (unfold field_in_payload; lia).
  assert (Hdis : fields_disjoint 0 16 false 31 16 true).
  { intros i j Hi Hj. unfold field_index, mirror. Z.div_mod_to_equations. lia. }
  split; [exact Hpb|]. split; [exact Ha|]. split; [exact Hb|].
  split; [exact Hdis|].
  exact (inserts_into_disjoint_fields_commute rpm_header 0 16 0x1234 false
           31 16 0xBEEF true Hpb Ha Hb Hdis).
Defined.

(** ** The payload as a number *)

Lemma byte_plus_bits (b x p : Z) :
  0 <= b < 256 -> 0 <= p ->
  Z.testbit (b + 256 * x) p
  = if p <? 8 then Z.testbit b p else Z.testbit x (p - 8).
Proof.
  intros Hb Hp.
  assert (Hlor : b + 256 * x = Z.lor b (Z.shiftl x 8)).
  { rewrite (lor_disjoint b (Z.shiftl x 8) 8).
    - rewrite Z.shiftl_mul_pow2 by lia. change (2 ^ 8) with 256. lia.
    - change (2 ^ 8) with 256. lia.
    - intros j Hj. apply Z.shiftl_spec_low. lia. }
  rewrite Hlor, Z.lor_spec. destruct (Z.ltb_spec p 8).
  - rewrite Z.shiftl_spec_low by lia. apply orb_false_r.
  - rewrite (testbit_small b 8 p), Z.shiftl_spec by (simpl; lia). reflexivity.
Qed.

Lemma payload_bit_cons (b : Z) (t : list Z) (p : Z) :
  0 <= p ->
  payload_bit (b :: t) p
  = if p <? 8 then Z.testbit b p else payload_bit t (p - 8).
Proof.
  intros Hp. unfold payload_bit. destruct (Z.ltb_spec p 8).
  - rewrite Z.div_small, Z.mod_small by lia. reflexivity.
  - replace (p / 8) with ((p - 8) / 8 + 1) by (Z.div_mod_to_equations; lia).
    replace (p mod 8) with ((p - 8) mod 8) by (Z.div_mod_to_equations; lia).
    assert (0 <= (p - 8) / 8) by (apply Z.div_pos; lia).
    rewrite Z2Nat.inj_add by lia. rewrite Nat.add_comm. reflexivity.
Qed.

(** Bit [p] of the little-endian number is payload bit [p]. *)
Lemma le_combine_bit (d : list Z) :
  Forall (fun b => 0 <= b < 256) d ->
  forall p, 0 <= p -> Z.testbit (le_combine d) p = payload_bit d p.
Proof.
  induction 1 as [|b t Hb Ht IH]; intros p Hp.
  - simpl. rewrite Z.bits_0. unfold payload_bit. rewrite lookup_nil. reflexivity.
  - simpl le_combine. rewrite byte_plus_bits, payload_bit_cons by assumption.
    destruct (Z.ltb_spec p 8); [reflexivity | apply IH; lia].
Qed.

Lemma payload_bit_beyond (d : list Z) (p : Z) :
  List.length d = 8%nat -> 64 <= p -> payload_bit d p = false.
Proof.
  intros Hd Hp. unfold payload_bit.
  assert (8 <= p / 8) by (apply Z.div_le_lower_bound; lia).
  rewrite lookup_ge_None_2 by lia. reflexivity.
Qed.

Lemma shift_mask_of_bits (n r start_bit length : Z) :
  0 <= start_bit -> 0 <= length ->
  (forall k, 0 <= k ->
     Z.testbit r k = (k <? length) && Z.testbit n (start_bit + k)) ->
  r = (n / 2 ^ start_bit) mod 2 ^ length.
Proof.
  intros Hs Hl Hbits. apply Z.bits_inj'. intros k Hk. rewrite Hbits by lia.
  destruct (Z.ltb_spec k length); simpl.
  - rewrite Z.mod_pow2_bits_low, Z.div_pow2_bits by lia. f_equal. lia.
  - rewrite Z.mod_pow2_bits_high by lia. reflexivity.
Qed.

(** Intel extraction is shift and mask on the payload read as a
    little-endian number: the result is the [length] bits that start at
    bit [start_bit] of that number. *)
Theorem intel_extract_is_shift_mask (msg : Can_Message_t) (start_bit length : Z) :
  payload_bytes (Msg.data msg) -> field_in_payload start_bit length false ->
  Can_ExtractSignal msg start_bit length false
  = Returns ((le_combine (Msg.data msg) / 2 ^ start_bit) mod 2 ^ length).
Proof.
  intros [Hwf Hbytes] Hf.
  destruct (extract_bits msg start_bit length false Hwf Hf) as (r & -> & Hbits).
  f_equal. destruct Hf as [Hl [Hs Hs']].
  apply shift_mask_of_bits; [lia | lia |]. intros k Hk.
  rewrite Hbits, le_combine_bit by (auto; lia). reflexivity.
Qed.

Lemma intel_extract_is_shift_mask_witness :
  payload_bytes (Msg.data (with_data zero_msg [0x12; 0x34; 0x56; 0x78; 0x9A; 0xBC; 0xDE; 0xF0])) /\
  field_in_payload 12 20 false /\
  Can_ExtractSignal
    (with_data zero_msg [0x12; 0x34; 0x56; 0x78; 0x9A; 0xBC; 0xDE; 0xF0]) 12 20 false
  = Returns ((0xF0DEBC9A78563412 / 2 ^ 12) mod 2 ^ 20).
Proof.
  assert (Hpb : payload_bytes
                  (Msg.data (with_data zero_msg
                               [0x12; 0x34; 0x56; 0x78; 0x9A; 0xBC; 0xDE; 0xF0]))).
  { split; [reflexivity|]. simpl. repeat constructor; lia. }
  assert (Hf : field_in_payload 12 20 false) by (unfold field_in_payload; lia).
  split; [exact Hpb|]. split; [exact Hf|].
  exact (intel_extract_is_shift_mask _ 12 20 Hpb Hf).
Defined.

(** Intel insertion is mask and merge on the payload read as a
    little-endian number: the [length] bits from [start_bit] are cleared
    and replaced by the low [length] bits of the value. *)
Theorem intel_insert_is_mask_merge (msg : Can_Message_t)
  (start_bit length value : Z) :
  payload_bytes (Msg.data msg) -> field_in_payload start_bit length false ->
  exists msg',
    Can_InsertSignal msg start_bit length value false = Returns msg' /\
    le_combine (Msg.data msg')
    = Z.lor (Z.land (le_combine (Msg.data msg))
                    (Z.lnot (Z.shiftl (Z.ones length) start_bit)))
            (Z.shiftl (value mod 2 ^ length) start_bit).
Proof.
  intros [Hwf Hbytes] Hf.
  destruct (insert_bits msg start_bit length value false Hwf Hf)
    as (msg' & Hins & Hwf' & Hout & Hin).
  exists msg'. split; [exact Hins|].
  pose proof (insert_bytes _ _ _ _ _ _ Hbytes Hins) as Hbytes'.
  destruct Hf as [Hl [Hs Hs']].
  apply Z.bits_inj'. intros p Hp.
  rewrite Z.lor_spec, Z.land_spec, Z.lnot_spec, !Z.shiftl_spec by lia.
  rewrite !le_combine_bit by (auto; lia).
  destruct (Z.lt_ge_cases p start_bit) as [Hlow|Hge].
  - rewrite !(Z.testbit_neg_r _ (p - start_bit)) by lia.
    rewrite Hout; [simpl; rewrite andb_true_r, orb_false_r; reflexivity | lia |].
    intros j Hj. unfold field_index. lia.
  - rewrite Z.testbit_ones_nonneg by lia.
    destruct (Z.ltb_spec (p - start_bit) length) as [Hin'|Hout'].
    + specialize (Hin (p - start_bit) ltac:(lia)).
      unfold field_index, value_index in Hin.
      replace (start_bit + (p - start_bit)) with p in Hin by lia.
      rewrite Hin, Z.mod_pow2_bits_low by lia. simpl.
      rewrite andb_false_r. reflexivity.
    + rewrite Z.mod_pow2_bits_high by lia. simpl.
      rewrite andb_true_r, orb_false_r.
      destruct (Z.lt_ge_cases p 64).
      * apply Hout; [lia|]. intros j Hj. unfold field_index. lia.
      * rewrite !payload_bit_beyond by assumption. reflexivity.
Qed.

Lemma intel_insert_is_mask_merge_witness :
  payload_bytes (Msg.data (with_data zero_msg [0x12; 0x34; 0x56; 0x78; 0x9A; 0xBC; 0xDE; 0xF0])) /\
  field_in_payload 12 20 false /\
  exists msg',
    Can_InsertSignal
      (with_data zero_msg [0x12; 0x34; 0x56; 0x78; 0x9A; 0xBC; 0xDE; 0xF0])
      12 20 0xABCDE false = Returns msg' /\
    le_combine (Msg.data msg')
    = Z.lor (Z.land (le_combine [0x12; 0x34; 0x56; 0x78; 0x9A; 0xBC; 0xDE; 0xF0])
                    (Z.lnot (Z.shiftl (Z.ones 20) 12)))
            (Z.shiftl (0xABCDE mod 2 ^ 20) 12).
Proof.
  assert (Hpb : payload_bytes
                  (Msg.data (with_data zero_msg
                               [0x12; 0x34; 0x56; 0x78; 0x9A; 0xBC; 0xDE; 0xF0]))).
  { split; [reflexivity|]. simpl. repeat constructor; lia. }
  assert (Hf : field_in_payload 12 20 false) by (unfold field_in_payload; lia).
  split; [exact Hpb|]. split; [exact Hf|].
  exact (intel_insert_is_mask_merge _ 12 20 0xABCDE Hpb Hf).
Defined.

(** ** Motorola order *)

Lemma rev8_bit (b k : Z) :
  0 <= k < 8 -> Z.testbit (rev8 b) k = Z.testbit b (7 - k).
Proof.
  intros Hk. unfold rev8.
  assert (Hcases : k = 0 \/ k = 1 \/ k = 2 \/ k = 3 \/ k = 4 \/ k = 5 \/ k = 6 \/ k = 7)
    by lia.
  destruct Hcases as [-> | [-> | [-> | [-> | [-> | [-> | [-> | ->]]]]]]];
    match goal with
    | |- context [7 - ?c] =>
        let v := eval vm_compute in (7 - c) in change (7 - c) with v
    end;
    destruct (Z.testbit b 0), (Z.testbit b 1), (Z.testbit b 2), (Z.testbit b 3),
      (Z.testbit b 4), (Z.testbit b 5), (Z.testbit b 6), (Z.testbit b 7);
    reflexivity.
Qed.

Lemma payload_bit_rev8 (d : list Z) (p : Z) :
  0 <= p -> payload_bit (rev8 <$> d) p = payload_bit d (mirror p).
Proof.
  intros Hp. unfold payload_bit, mirror.
  replace ((8 * (p / 8) + (7 - p mod 8)) / 8) with (p / 8)
    by (Z.div_mod_to_equations; lia).
  replace ((8 * (p / 8) + (7 - p mod 8)) mod 8) with (7 - p mod 8)
    by (Z.div_mod_to_equations; lia).
  rewrite list_lookup_fmap. destruct (d !! Z.to_nat (p / 8)); simpl; [|reflexivity].
  apply rev8_bit. apply Z.mod_pos_bound. lia.
Qed.

(** The Motorola order of this codec is the Intel order on bit-reversed
    bytes: Motorola extraction at [start_bit] equals Intel extraction of
    the same length at [start_bit - length + 1] from the payload whose
    every byte has its eight bits reversed.  It is not a big-endian byte
    order. *)
Theorem motorola_extract_is_intel_on_reversed_bytes (msg : Can_Message_t)
  (start_bit length : Z) :
  wf_msg msg -> field_in_payload start_bit length true ->
  Can_ExtractSignal msg start_bit length true
  = Can_ExtractSignal (with_data msg (rev8 <$> Msg.data msg))
      (start_bit - length + 1) length false.
Proof.
  intros Hwf Hf. pose proof Hf as [Hl Hs].
  assert (Hf' : field_in_payload (start_bit - length + 1) length false)
    by (unfold field_in_payload; lia).
  assert (Hwf' : wf_msg (with_data msg (rev8 <$> Msg.data msg)))
    by (unfold wf_msg; simpl; rewrite length_fmap; exact Hwf).
  destruct (extract_bits msg start_bit length true Hwf Hf) as (r & -> & Hbits).
  destruct (extract_bits _ (start_bit - length + 1) length false Hwf' Hf')
    as (r' & -> & Hbits').
  f_equal. apply Z.bits_inj'. intros k Hk. rewrite Hbits, Hbits' by lia.
  destruct (Z.ltb_spec k length); [simpl | reflexivity].
  unfold field_index, value_index. rewrite payload_bit_rev8 by lia.
  f_equal. f_equal. lia.
Qed.

Lemma motorola_extract_is_intel_on_reversed_bytes_witness :
  wf_msg (with_data zero_msg [0x12; 0x34; 0x56; 0x78; 0x9A; 0xBC; 0xDE; 0xF0]) /\
  field_in_payload 15 16 true /\
  Can_ExtractSignal
    (with_data zero_msg [0x12; 0x34; 0x56; 0x78; 0x9A; 0xBC; 0xDE; 0xF0]) 15 16 true
  = Can_ExtractSignal
      (with_data zero_msg [0x48; 0x2C; 0x6A; 0x1E; 0x59; 0x3D; 0x7B; 0x0F]) 0 16 false.
Proof.
  assert (Hwf : wf_msg (with_data zero_msg
                          [0x12; 0x34; 0x56; 0x78; 0x9A; 0xBC; 0xDE; 0xF0]))
    by reflexivity.
  assert (Hf : field_in_payload 15 16 true) by (unfold field_in_payload; lia).
  split; [exact Hwf|]. split; [exact Hf|].
  exact (motorola_extract_is_intel_on_reversed_bytes _ 15 16 Hwf Hf).
Defined.

(** ** Fields longer than 64 bits *)

Lemma for_loop_hits_undefined {S : Type} (body : Z -> S -> outcome S)
  (Inv : S -> Prop) :
  (forall i s s', Inv s -> body i s = Returns s' -> Inv s') ->
  forall n i s j,
    Inv s -> i <= j < i + Z.of_nat n ->
    (forall s0, Inv s0 -> body j s0 = Undefined) ->
    for_loop n i body s = Undefined.
Proof.
  intros Hinv. induction n as [|n IH]; intros i s j Hs Hj Hbad; [lia|].
  simpl. destruct (body i s) as [s1|] eqn:Hb; [simpl | reflexivity].
  destruct (Z.eq_dec j i) as [->|Hne].
  - rewrite (Hbad s Hs) in Hb. discriminate.
  - apply (IH (i + 1) s1 j); [apply (Hinv i s); assumption | lia | exact Hbad].
Qed.

Lemma modify_data_length (d d' : list Z) (byte_idx : Z) (f : Z -> Z) :
  modify_data d byte_idx f = Returns d' -> List.length d' = List.length d.
Proof.
  unfold modify_data. intros H.
  destruct (read_data d byte_idx); simpl in H; [|discriminate].
  injection H as <-. apply length_insert.
Qed.

Lemma insert_body_length (start_bit length value : Z) (motorola : bool)
  (i : Z) (d d' : list Z) :
  (if motorola then insert_motorola_body start_bit length value i d
   else insert_intel_body start_bit value i d) = Returns d' ->
  List.length d' = List.length d.
Proof.
  destruct motorola; unfold insert_motorola_body, insert_intel_body; intros H;
    destruct (shr64 _ _); simpl in H; try discriminate;
    destruct (_ =? 0); exact (modify_data_length _ _ _ _ H).
Qed.

Lemma insert_body_out_of_bounds (start_bit length value : Z) (motorola : bool)
  (i : Z) (d : list Z) :
  List.length d = 8%nat -> 8 <= byte_index start_bit motorola i ->
  (if motorola then insert_motorola_body start_bit length value i d
   else insert_intel_body start_bit value i d) = Undefined.
Proof.
  intros Hd Hbad.
  destruct motorola; unfold byte_index in Hbad;
    unfold insert_motorola_body, insert_intel_body;
    destruct (shr64 _ _); simpl; try reflexivity;
    destruct (_ =? 0); apply modify_data_undefined; auto.
Qed.

(** Among any 65 consecutive signal positions one leaves the payload. *)
Lemma some_byte_index_out_of_bounds (start_bit : Z) (motorola : bool) :
  exists j, 0 <= j <= 64 /\ 8 <= byte_index start_bit motorola j.
Proof.
  destruct (Z_lt_dec (byte_index start_bit motorola 0) 8) as [Hin|Hout];
    [exists 64 | exists 0; lia].
  split; [lia|]. revert Hin. unfold byte_index, u8, u16.
  change (2 ^ 16) with 65536. change (2 ^ 8) with 256.
  destruct motorola; intros Hin; Z.div_mod_to_equations; lia.
Qed.

(** No field longer than 64 bits can be extracted or inserted: for every
    start bit and byte order, a call with [length > 64] on an 8-byte
    payload indexes [data] out of bounds (or shifts by 64 or more before
    it does) and has no defined result. *)
Theorem length_above_64_is_undefined (msg : Can_Message_t)
  (start_bit length value : Z) (motorola : bool) :
  wf_msg msg -> 64 < length ->
  Can_ExtractSignal msg start_bit length motorola = Undefined /\
  Can_InsertSignal msg start_bit length value motorola = Undefined.
Proof.
  intros Hwf Hl.
  destruct (some_byte_index_out_of_bounds start_bit motorola) as (j & Hj & Hbad).
  split.
  - unfold Can_ExtractSignal. rewrite loop_if.
    apply (for_loop_hits_undefined _ (fun _ => True)) with (j := j); auto; [lia|].
    intros s _. apply extract_body_undefined; assumption.
  - unfold Can_InsertSignal. rewrite loop_if.
    rewrite (for_loop_hits_undefined _ (fun d => List.length d = 8%nat))
      with (j := j); auto; [| lia |].
    + intros i s s' Hs Hb. rewrite (insert_body_length _ _ _ _ _ _ _ Hb). exact Hs.
    + intros s Hs. apply insert_body_out_of_bounds; assumption.
Qed.

Lemma length_above_64_is_undefined_witness :
  wf_msg zero_msg /\ 64 < 65 /\
  Can_ExtractSignal zero_msg 0 65 false = Undefined /\
  Can_InsertSignal zero_msg 0 65 0 false = Undefined.
Proof.
  assert (Hwf : wf_msg zero_msg) by reflexivity.
  assert (Hl : 64 < 65) by lia.
  split; [exact Hwf|]. split; [exact Hl|].
  exact (length_above_64_is_undefined zero_msg 0 65 0 false Hwf Hl).
Defined.

(** ** Validation and insertion *)

(** Inserting a signal never changes whether a message is valid:
    [Can_ValidateMessage] gives the same answer on the message returned
    by [Can_InsertSignal] as on its argument. *)
Theorem insert_preserves_validity (msg : Can_Message_t)
  (start_bit length value : Z) (motorola : bool) :
  wf_msg msg -> field_in_payload start_bit length motorola ->
  exists msg',
    Can_InsertSignal msg start_bit length value motorola = Returns msg' /\
    Can_ValidateMessage msg' = Can_ValidateMessage msg.
Proof.
  intros Hwf Hf.
  destruct (insert_bits msg start_bit length value motorola Hwf Hf)
    as (msg' & Hins & _).
  exists msg'. split; [exact Hins|].
  destruct (insert_returns_frame _ _ _ _ _ _ Hins) as (Hid & Hdlc & Hext & _).
  unfold Can_ValidateMessage. rewrite Hid, Hdlc, Hext. reflexivity.
Qed.

Lemma insert_preserves_validity_witness :
  wf_msg rpm_header /\ field_in_payload 63 64 true /\
  exists msg',
    Can_InsertSignal rpm_header 63 64 0xFFFFFFFFFFFFFFFF true = Returns msg' /\
    Can_ValidateMessage msg' = Can_ValidateMessage rpm_header.
Proof.
  assert (Hwf : wf_msg rpm_header) by reflexivity.
  assert (Hf : field_in_payload 63 64 true) by (unfold field_in_payload; lia).
  split; [exact Hwf|]. split; [exact Hf|].
  exact (insert_preserves_validity rpm_header 63 64 0xFFFFFFFFFFFFFFFF true Hwf Hf).
Defined.

(** ** The range check *)

Lemma f32_le_not_nan (lo hi : spec_float) :
  f32_le lo hi = true -> is_nan lo = false /\ is_nan hi = false.
Proof.
  unfold f32_le, SFleb. destruct lo, hi; simpl; intros H;
    try discriminate; split; reflexivity.
Qed.

Lemma f32_le_refl (x : spec_float) : is_nan x = false -> f32_le x x = true.
Proof.
  unfold f32_le, SFleb. destruct x as [s|s| |s m e]; simpl; intros H;
    try discriminate; try (destruct s; reflexivity).
  rewrite Z.compare_refl.
  change (Pos.compare_cont Eq m m) with (Pos.compare m m).
  rewrite Pos.compare_refl. destruct s; reflexivity.
Qed.

Lemma f32_not_lt_le (x lo : spec_float) :
  is_nan x = false -> is_nan lo = false ->
  f32_lt x lo = false -> f32_le lo x = true.
Proof.
  unfold f32_lt, f32_le, SFltb, SFleb.
  destruct x as [sx|sx| |sx mx ex], lo as [sl|sl| |sl ml el];
    simpl; intros Hx Hlo; try discriminate; try reflexivity;
    repeat match goal with s : bool |- _ => destruct s end;
    simpl; try discriminate; try reflexivity;
    intros Hlt; cmp_cases; simpl in *;
    try discriminate; try reflexivity; subst; exfalso; lia.
Qed.

Lemma f32_not_gt_le (x hi : spec_float) :
  is_nan x = false -> is_nan hi = false ->
  f32_gt x hi = false -> f32_le x hi = true.
Proof. intros Hx Hhi. unfold f32_gt. apply f32_not_lt_le; assumption. Qed.

(** For a descriptor with [min_value <= max_value], the value returned by
    [Can_SignalToPhysical] lies between the two bounds unless it is
    not-a-number; a not-a-number scaled value passes the range check
    unchanged, so the result can only be not-a-number when the scaled
    value is. *)
Theorem physical_result_within_bounds (raw_value : Z) (signal : Can_Signal_t)
  (is_signed : bool) (result : spec_float) :
  Can_SignalToPhysical raw_value signal is_signed = Returns result ->
  f32_le (Sig.min_value signal) (Sig.max_value signal) = true ->
  exists numeric,
    numeric_value raw_value (Sig.length signal) is_signed = Returns numeric /\
    if is_nan (scaled signal numeric) then result = scaled signal numeric
    else f32_le (Sig.min_value signal) result = true /\
         f32_le result (Sig.max_value signal) = true.
Proof.
  rewrite Can_SignalToPhysical_numeric. intros Hr Hle.
  destruct (numeric_value raw_value (Sig.length signal) is_signed) as [n|];
    simpl in Hr; [|discriminate].
  injection Hr as <-. exists n. split; [reflexivity|].
  destruct (f32_le_not_nan _ _ Hle) as [Hmin Hmax].
  unfold range_check.
  destruct (is_nan (scaled signal n)) eqn:Hnan.
  - destruct (scaled signal n); try discriminate.
    unfold f32_lt, f32_gt, SFltb.
    destruct (Sig.min_value signal), (Sig.max_value signal); reflexivity.
  - destruct (f32_lt (scaled signal n) (Sig.min_value signal)) eqn:Hlt.
    + split; [apply f32_le_refl; exact Hmin | exact Hle].
    + destruct (f32_gt (scaled signal n) (Sig.max_value signal)) eqn:Hgt.
      * split; [exact Hle | apply f32_le_refl; exact Hmax].
      * split; [apply f32_not_lt_le | apply f32_not_gt_le]; assumption.
Qed.

Lemma physical_result_within_bounds_witness :
  Can_SignalToPhysical 12345 speed_signal false
  = Returns (scaled speed_signal 12345) /\
  f32_le (Sig.min_value speed_signal) (Sig.max_value speed_signal) = true /\
  exists numeric,
    numeric_value 12345 (Sig.length speed_signal) false = Returns numeric /\
    if is_nan (scaled speed_signal numeric)
    then scaled speed_signal 12345 = scaled speed_signal numeric
    else f32_le (Sig.min_value speed_signal) (scaled speed_signal 12345) = true /\
         f32_le (scaled speed_signal 12345) (Sig.max_value speed_signal) = true.
Proof.
  assert (Hr : Can_SignalToPhysical 12345 speed_signal false
               = Returns (scaled speed_signal 12345)) by reflexivity.
  assert (Hle : f32_le (Sig.min_value speed_signal) (Sig.max_value speed_signal)
                = true) by reflexivity.
  split; [exact Hr|]. split; [exact Hle|].
  exact (physical_result_within_bounds 12345 speed_signal false _ Hr Hle).
Defined.

(** ** Two's complement decoding *)

(** For widths 1 to 63 the signed reading of a raw field is its two's
    complement value: it lies in [-2^(length-1) .. 2^(length-1) - 1], it is
    congruent to the raw value modulo [2 ^ length], and it is negative
    exactly when bit [length - 1] of the raw value is set. *)
Theorem signed_numeric_is_twos_complement (raw_value length : Z) :
  1 <= length <= 63 -> 0 <= raw_value < 2 ^ length ->
  exists numeric,
    numeric_value raw_value length true = Returns numeric /\
    - 2 ^ (length - 1) <= numeric < 2 ^ (length - 1) /\
    numeric mod 2 ^ length = raw_value /\
    (numeric < 0 <-> Z.testbit raw_value (length - 1) = true).
Proof.
  intros Hl Hr. unfold numeric_value.
  rewrite sign_extend_spec by (auto; lia).
  assert (Hp : 2 ^ length = 2 * 2 ^ (length - 1)).
  { replace length with (Z.succ (length - 1)) at 1 by lia.
    apply Z.pow_succ_r. lia. }
  destruct (Z.testbit raw_value (length - 1)) eqn:Hb.
  - pose proof (above_sign_bit raw_value (length - 1) ltac:(lia) ltac:(lia) Hb).
    eexists. split; [reflexivity|]. split; [lia|]. split.
    + symmetry. apply Z.mod_unique with (-1); lia.
    + split; [reflexivity | lia].
  - pose proof (below_sign_bit raw_value (length - 1) ltac:(lia)
                  ltac:(replace (length - 1 + 1) with length by lia; lia) Hb).
    eexists. split; [reflexivity|]. split; [lia|]. split.
    + apply Z.mod_small. lia.
    + split; [lia | discriminate].
Qed.

Lemma signed_numeric_is_twos_complement_witness :
  1 <= 12 <= 63 /\ 0 <= 0x801 < 2 ^ 12 /\
  exists numeric,
    numeric_value 0x801 12 true = Returns numeric /\
    - 2 ^ (12 - 1) <= numeric < 2 ^ (12 - 1) /\
    numeric mod 2 ^ 12 = 0x801 /\
    (numeric < 0 <-> Z.testbit 0x801 (12 - 1) = true).
Proof.
  assert (Hl : 1 <= 12 <= 63) by lia.
  assert (Hr : 0 <= 0x801 < 2 ^ 12) by lia.
  split; [exact Hl|]. split; [exact Hr|].
  exact (signed_numeric_is_twos_complement 0x801 12 Hl Hr).
Defined.

(** The decode pipeline is defined for every signal of up to 63 bits that
    lies within the payload: what [Can_ExtractSignal] returns is a raw
    value that [Can_SignalToPhysical] accepts for the same descriptor, and
    the physical value is the range-checked scaling of its unsigned or
    two's complement reading. *)
Theorem extract_then_convert (msg : Can_Message_t) (signal : Can_Signal_t)
  (motorola is_signed : bool) :
  wf_msg msg ->
  field_in_payload (Sig.start_bit signal) (Sig.length signal) motorola ->
  Sig.length signal <= 63 ->
  exists raw_value,
    Can_ExtractSignal msg (Sig.start_bit signal) (Sig.length signal) motorola
    = Returns raw_value /\
    Can_SignalToPhysical raw_value signal is_signed
    = Returns (range_check signal
                 (scaled signal
                    (if is_signed && Z.testbit raw_value (Sig.length signal - 1)
                     then raw_value - 2 ^ Sig.length signal else raw_value))).
Proof.
  intros Hwf Hf Hl.
  destruct (extract_bits msg _ _ motorola Hwf Hf) as (raw & Hraw & Hbits).
  assert (Hrange : 0 <= raw < 2 ^ Sig.length signal).
  { apply below_pow2_of_bits; [destruct Hf; lia|]. intros k Hk.
    rewrite Hbits by (destruct Hf; lia).
    destruct (Z.ltb_spec k (Sig.length signal)); [lia | reflexivity]. }
  exists raw. split; [exact Hraw|].
  rewrite Can_SignalToPhysical_numeric.
  rewrite numeric_value_spec; [reflexivity | destruct Hf; lia | exact Hrange | lia].
Qed.

Lemma extract_then_convert_witness :
  wf_msg (with_data zero_msg [0xFF; 0x7F; 0; 0; 0; 0; 0; 0]) /\
  field_in_payload (Sig.start_bit speed_signal) (Sig.length speed_signal) false /\
  Sig.length speed_signal <= 63 /\
  exists raw_value,
    Can_ExtractSignal (with_data zero_msg [0xFF; 0x7F; 0; 0; 0; 0; 0; 0])
      (Sig.start_bit speed_signal) (Sig.length speed_signal) false
    = Returns raw_value /\
    Can_SignalToPhysical raw_value speed_signal true
    = Returns (range_check speed_signal
                 (scaled speed_signal
                    (if true && Z.testbit raw_value (Sig.length speed_signal - 1)
                     then raw_value - 2 ^ Sig.length speed_signal else raw_value))).
Proof.
  assert (Hwf : wf_msg (with_data zero_msg [0xFF; 0x7F; 0; 0; 0; 0; 0; 0]))
    by reflexivity.
  assert (Hf : field_in_payload (Sig.start_bit speed_signal)
                 (Sig.length speed_signal) false)
    by (unfold field_in_payload; simpl; lia).
  assert (Hl : Sig.length speed_signal <= 63) by (simpl; lia).
  split; [exact Hwf|]. split; [exact Hf|]. split; [exact Hl|].
  exact (extract_then_convert _ speed_signal false true Hwf Hf Hl).
Defined.


(** ** The vehicle speed signal *)

Lemma float_eqb_eq (x y : spec_float) : float_eqb x y = true -> x = y.
Proof.
  destruct x as [s|s| |s m e], y as [s'|s'| |s' m' e']; simpl;
    intros H; try discriminate; try reflexivity.
  - apply Bool.eqb_prop in H. congruence.
  - apply Bool.eqb_prop in H. congruence.
  - apply andb_true_iff in H as [H He]. apply andb_true_iff in H as [Hs Hm].
    apply Bool.eqb_prop in Hs. apply Pos.eqb_eq in Hm. apply Z.eqb_eq in He.
    congruence.
Qed.

(** The range check of the speed signal on every 16-bit raw value: the
    scaled value is never below 0, it is above 300 exactly from raw 30001
    on, and the checked value lies between 0 and 300. *)
Lemma speed_range_check (raw : Z) :
  0 <= raw < 65536 ->
  f32_lt (scaled speed_signal raw) f32_0_0 = false /\
  f32_gt (scaled speed_signal raw) f32_300_0 = (30000 <? raw) /\
  f32_le f32_0_0 (range_check speed_signal (scaled speed_signal raw)) = true /\
  f32_le (range_check speed_signal (scaled speed_signal raw)) f32_300_0 = true.
Proof.
  intros Hr.
  assert (Hall : check_range 0 (Z.to_nat 65536)
                   (fun z =>
                      negb (f32_lt (scaled speed_signal z) f32_0_0)
                      && Bool.eqb (f32_gt (scaled speed_signal z) f32_300_0)
                                  (30000 <? z)
                      && f32_le f32_0_0
                           (range_check speed_signal (scaled speed_signal z))
                      && f32_le (range_check speed_signal (scaled speed_signal z))
                           f32_300_0) = true) by (vm_compute; reflexivity).
  pose proof (check_range_sound _ _ _ Hall raw ltac:(lia)) as H. simpl in H.
  apply andb_true_iff in H as [H H4]. apply andb_true_iff in H as [H H3].
  apply andb_true_iff in H as [H1 H2].
  apply negb_true_iff in H1. apply Bool.eqb_prop in H2. auto.
Qed.

(** [Can_ParseVehicleSpeed] is defined on every 8-byte message and its
    result always lies between 0.0 and 300.0. *)
Theorem parsed_speed_within_0_300 (msg : Can_Message_t) :
  wf_msg msg ->
  exists speed,
    Can_ParseVehicleSpeed msg = Returns speed /\
    f32_le f32_0_0 speed = true /\ f32_le speed f32_300_0 = true.
Proof.
  intros Hwf. unfold Can_ParseVehicleSpeed.
  destruct (extract_bits msg 0 16 false Hwf) as (raw & Hraw & Hbits);
    [unfold field_in_payload; lia|].
  assert (Hrange : 0 <= raw < 2 ^ 16).
  { apply below_pow2_of_bits; [lia|]. intros k Hk. rewrite Hbits by lia.
    destruct (Z.ltb_spec k 16); [lia | reflexivity]. }
  simpl Sig.start_bit. simpl Sig.length. rewrite Hraw. simpl bind.
  destruct (speed_range_check raw) as (_ & _ & Hlo & Hhi); [simpl in Hrange; lia|].
  eexists. split; [reflexivity|]. split; assumption.
Qed.

Lemma parsed_speed_within_0_300_witness :
  wf_msg (with_data zero_msg [0xFF; 0xFF; 0; 0; 0; 0; 0; 0]) /\
  exists speed,
    Can_ParseVehicleSpeed (with_data zero_msg [0xFF; 0xFF; 0; 0; 0; 0; 0; 0])
    = Returns speed /\
    f32_le f32_0_0 speed = true /\ f32_le speed f32_300_0 = true.
Proof.
  assert (Hwf : wf_msg (with_data zero_msg [0xFF; 0xFF; 0; 0; 0; 0; 0; 0]))
    by reflexivity.
  split; [exact Hwf|]. exact (parsed_speed_within_0_300 _ Hwf).
Defined.

(** The parsed speed depends on bytes 0 and 1 only, read as a
    little-endian 16-bit number [raw]: it is [raw * 0.01] in [float]
    arithmetic up to raw 30000 and saturates at 300.0 above. *)
Theorem parsed_speed_value (msg : Can_Message_t) (b0 b1 : Z) (rest : list Z) :
  Msg.data msg = b0 :: b1 :: rest -> payload_bytes (Msg.data msg) ->
  Can_ParseVehicleSpeed msg
  = Returns (if b0 + 256 * b1 <=? 30000
             then f32_add (f32_mul (f32_of_Z (b0 + 256 * b1)) f32_0_01) f32_0_0
             else f32_300_0).
Proof.
  intros Hd Hpb. unfold Can_ParseVehicleSpeed.
  simpl Sig.start_bit. simpl Sig.length.
  destruct Hpb as [Hwf Hbytes].
  destruct (extract_bits msg 0 16 false Hwf) as (r & -> & Hbits);
    [unfold field_in_payload; lia|].
  rewrite (shift_mask_of_bits (le_combine (Msg.data msg)) r 0 16)
    by (try lia; intros k Hk; rewrite Hbits, le_combine_bit by (auto; lia);
        reflexivity).
  rewrite Hd in *.
  apply Forall_cons in Hbytes as [Hb0 Hbytes].
  apply Forall_cons in Hbytes as [Hb1 _].
  assert (Hraw : (le_combine (b0 :: b1 :: rest) / 2 ^ 0) mod 2 ^ 16 = b0 + 256 * b1).
  { simpl le_combine. change (2 ^ 0) with 1. rewrite Z.div_1_r.
    symmetry. apply Z.mod_unique with (le_combine rest);
      change (2 ^ 16) with 65536; lia. }
  rewrite Hraw. simpl bind. rewrite Can_SignalToPhysical_numeric.
  unfold numeric_value. simpl bind. f_equal.
  destruct (speed_range_check (b0 + 256 * b1)) as (Hlt & Hgt & _); [lia|].
  change (f32_add (f32_mul (f32_of_Z (b0 + 256 * b1)) f32_0_01) f32_0_0)
    with (scaled speed_signal (b0 + 256 * b1)).
  unfold range_check.
  change (Sig.min_value speed_signal) with f32_0_0.
  change (Sig.max_value speed_signal) with f32_300_0.
  rewrite Hlt, Hgt.
  destruct (Z.leb_spec (b0 + 256 * b1) 30000), (Z.ltb_spec 30000 (b0 + 256 * b1));
    try lia; reflexivity.
Qed.

Lemma parsed_speed_value_witness :
  Msg.data (with_data zero_msg [0x10; 0x27; 1; 2; 3; 4; 5; 6])
  = 0x10 :: 0x27 :: [1; 2; 3; 4; 5; 6] /\
  payload_bytes (Msg.data (with_data zero_msg [0x10; 0x27; 1; 2; 3; 4; 5; 6])) /\
  Can_ParseVehicleSpeed (with_data zero_msg [0x10; 0x27; 1; 2; 3; 4; 5; 6])
  = Returns (if 0x10 + 256 * 0x27 <=? 30000
             then f32_add (f32_mul (f32_of_Z (0x10 + 256 * 0x27)) f32_0_01) f32_0_0
             else f32_300_0).
Proof.
  assert (Hd : Msg.data (with_data zero_msg [0x10; 0x27; 1; 2; 3; 4; 5; 6])
               = 0x10 :: 0x27 :: [1; 2; 3; 4; 5; 6]) by reflexivity.
  assert (Hpb : payload_bytes
                  (Msg.data (with_data zero_msg [0x10; 0x27; 1; 2; 3; 4; 5; 6]))).
  { split; [reflexivity|]. simpl. repeat constructor; lia. }
  split; [exact Hd|]. split; [exact Hpb|].
  exact (parsed_speed_value _ 0x10 0x27 [1; 2; 3; 4; 5; 6] Hd Hpb).
Defined.

Lemma f32_lt_trans (x y z : spec_float) :
  f32_lt x y = true -> f32_lt y z = true -> f32_lt x z = true.
Proof.
  unfold f32_lt, SFltb.
  destruct x as [sx|sx| |sx mx ex], y as [sy|sy| |sy my ey],
    z as [sz|sz| |sz mz ez]; simpl; try discriminate; try reflexivity;
    repeat match goal with s : bool |- _ => destruct s end;
    simpl; try discriminate; try reflexivity;
    intros Hxy Hyz; cmp_cases; simpl in *;
    try discriminate; try reflexivity; subst; exfalso; lia.
Qed.

Lemma speed_next_is_greater (raw : Z) :
  0 <= raw < 30000 ->
  f32_lt (scaled speed_signal raw) (scaled speed_signal (raw + 1)) = true.
Proof.
  intros Hr.
  assert (Hall : check_range 0 (Z.to_nat 30000)
                   (fun z => f32_lt (scaled speed_signal z)
                               (scaled speed_signal (z + 1))) = true)
    by (vm_compute; reflexivity).
  exact (check_range_sound _ _ _ Hall raw ltac:(lia)).
Qed.

Lemma speed_is_increasing (n : nat) : forall raw,
  0 <= raw -> raw + Z.of_nat n + 1 <= 30000 ->
  f32_lt (scaled speed_signal raw)
         (scaled speed_signal (raw + Z.of_nat n + 1)) = true.
Proof.
  induction n as [|n IH]; intros raw Hr Hn.
  - replace (raw + Z.of_nat 0 + 1) with (raw + 1) by lia.
    apply speed_next_is_greater. lia.
  - apply f32_lt_trans with (scaled speed_signal (raw + Z.of_nat n + 1)).
    + apply IH; lia.
    + replace (raw + Z.of_nat (S n) + 1) with (raw + Z.of_nat n + 1 + 1) by lia.
      apply speed_next_is_greater. lia.
Qed.

(** Below saturation the speed conversion loses no resolution: of two raw
    values up to 30000, the larger converts to the strictly larger speed,
    so distinct raw values give distinct physical values. *)
Theorem speed_conversion_strictly_increasing (raw1 raw2 : Z) :
  0 <= raw1 -> raw1 < raw2 -> raw2 <= 30000 ->
  exists speed1 speed2,
    Can_SignalToPhysical raw1 speed_signal false = Returns speed1 /\
    Can_SignalToPhysical raw2 speed_signal false = Returns speed2 /\
    f32_lt speed1 speed2 = true.
Proof.
  intros H1 H12 H2.
  assert (Hexact : forall raw, 0 <= raw <= 30000 ->
            Can_SignalToPhysical raw speed_signal false
            = Returns (scaled speed_signal raw)).
  { intros raw Hr. rewrite Can_SignalToPhysical_numeric. simpl. f_equal.
    destruct (speed_range_check raw) as (Hlt & Hgt & _); [lia|].
    unfold range_check.
    change (Sig.min_value speed_signal) with f32_0_0.
    change (Sig.max_value speed_signal) with f32_300_0.
    rewrite Hlt, Hgt. destruct (Z.ltb_spec 30000 raw); [lia | reflexivity]. }
  exists (scaled speed_signal raw1), (scaled speed_signal raw2).
  split; [apply Hexact; lia|]. split; [apply Hexact; lia|].
  replace raw2 with (raw1 + Z.of_nat (Z.to_nat (raw2 - raw1 - 1)) + 1) by lia.
  apply speed_is_increasing; lia.
Qed.

Lemma speed_conversion_strictly_increasing_witness :
  0 <= 29999 /\ 29999 < 30000 /\ 30000 <= 30000 /\
  exists speed1 speed2,
    Can_SignalToPhysical 29999 speed_signal false = Returns speed1 /\
    Can_SignalToPhysical 30000 speed_signal false = Returns speed2 /\
    f32_lt speed1 speed2 = true.
Proof.
  assert (H1 : 0 <= 29999) by lia.
  assert (H12 : 29999 < 30000) by lia.
  assert (H2 : 30000 <= 30000) by lia.
  split; [exact H1|]. split; [exact H12|]. split; [exact H2|].
  exact (speed_conversion_strictly_increasing 29999 30000 H1 H12 H2).
Defined.

(** ** The engine speed message *)

Lemma zero_payload_bit (p : Z) : payload_bit zero_payload p = false.
Proof.
  unfold payload_bit. destruct (zero_payload !! Z.to_nat (p / 8)) as [b|] eqn:Hb;
    [|reflexivity].
  assert (Hz : Forall (fun b => b = 0) zero_payload) by (repeat constructor).
  rewrite (Forall_lookup_1 _ _ _ _ Hz Hb). apply Z.bits_0.
Qed.

Lemma create_rpm_is_insert (msg : Can_Message_t) (rpm : Z) :
  0 <= rpm < 65536 ->
  Can_CreateEngineRpmMessage msg rpm
  = Can_InsertSignal rpm_header 16 16 (4 * Z.min rpm 8000) false.
Proof.
  intros Hr. unfold Can_CreateEngineRpmMessage.
  rewrite rpm_to_raw_exact by lia. simpl bind.
  destruct (Z.gtb_spec rpm 8000).
  - rewrite Z.min_r by lia. reflexivity.
  - rewrite Z.min_l by lia. reflexivity.
Qed.

(** For every [uint16_t] speed, [Can_CreateEngineRpmMessage] returns a
    message whose 16-bit Intel field at bit 16 holds [4 * min rpm 8000]
    (the speed at factor 0.25, saturated at 8000) and whose other payload
    bits are all zero. *)
Theorem engine_rpm_message_field (msg : Can_Message_t) (rpm : Z) :
  0 <= rpm < 65536 ->
  exists msg',
    Can_CreateEngineRpmMessage msg rpm = Returns msg' /\
    Can_ExtractSignal msg' 16 16 false = Returns (4 * Z.min rpm 8000) /\
    forall p, 0 <= p < 64 -> ~ 16 <= p < 32 ->
      payload_bit (Msg.data msg') p = false.
Proof.
  intros Hr. rewrite create_rpm_is_insert by exact Hr.
  assert (Hwf : wf_msg rpm_header) by reflexivity.
  assert (Hf : field_in_payload 16 16 false) by (unfold field_in_payload; lia).
  destruct (insert_bits rpm_header 16 16 (4 * Z.min rpm 8000) false Hwf Hf)
    as (msg' & Hins & _ & Hout & _).
  exists msg'. split; [exact Hins|]. split.
  - pose proof (roundtrip_any_payload rpm_header 16 16 (4 * Z.min rpm 8000) false
                  Hwf Hf) as Hrt.
    rewrite Hins in Hrt. simpl in Hrt. apply Hrt.
    change (2 ^ 16) with 65536. lia.
  - intros p Hp Hnot. rewrite Hout; [apply zero_payload_bit | exact Hp |].
    intros j Hj. unfold field_index. lia.
Qed.

Lemma engine_rpm_message_field_witness :
  0 <= 2500 < 65536 /\
  exists msg',
    Can_CreateEngineRpmMessage zero_msg 2500 = Returns msg' /\
    Can_ExtractSignal msg' 16 16 false = Returns (4 * Z.min 2500 8000) /\
    forall p, 0 <= p < 64 -> ~ 16 <= p < 32 ->
      payload_bit (Msg.data msg') p = false.
Proof.
  assert (Hr : 0 <= 2500 < 65536) by lia.
  split; [exact Hr|]. exact (engine_rpm_message_field zero_msg 2500 Hr).
Defined.

(** Every message built by [Can_CreateEngineRpmMessage] passes
    [Can_ValidateMessage]: it is a standard-identifier data frame with
    identifier [0x234] and [dlc = 8], whatever the argument message held. *)
Theorem engine_rpm_message_is_valid (msg : Can_Message_t) (rpm : Z) :
  0 <= rpm < 65536 ->
  exists msg',
    Can_CreateEngineRpmMessage msg rpm = Returns msg' /\
    Can_ValidateMessage msg' = true /\
    Msg.id msg' = 0x234 /\ Msg.dlc msg' = 8 /\
    Msg.extended_id msg' = false /\ Msg.rtr msg' = false.
Proof.
  intros Hr. rewrite create_rpm_is_insert by exact Hr.
  assert (Hwf : wf_msg rpm_header) by reflexivity.
  assert (Hf : field_in_payload 16 16 false) by (unfold field_in_payload; lia).
  destruct (insert_bits rpm_header 16 16 (4 * Z.min rpm 8000) false Hwf Hf)
    as (msg' & Hins & _).
  exists msg'. split; [exact Hins|].
  destruct (insert_returns_frame _ _ _ _ _ _ Hins) as (Hid & Hdlc & Hext & Hrtr).
  unfold Can_ValidateMessage. rewrite Hid, Hdlc, Hext, Hrtr. repeat split.
Qed.

Lemma engine_rpm_message_is_valid_witness :
  0 <= 65535 < 65536 /\
  exists msg',
    Can_CreateEngineRpmMessage zero_msg 65535 = Returns msg' /\
    Can_ValidateMessage msg' = true /\
    Msg.id msg' = 0x234 /\ Msg.dlc msg' = 8 /\
    Msg.extended_id msg' = false /\ Msg.rtr msg' = false.
Proof.
  assert (Hr : 0 <= 65535 < 65536) by lia.
  split; [exact Hr|]. exact (engine_rpm_message_is_valid zero_msg 65535 Hr).
Defined.

Lemma rpm_decode (k : Z) :
  0 <= k <= 8000 ->
  range_check rpm_signal (scaled rpm_signal (4 * k)) = f32_of_Z k.
Proof.
  intros Hk.
  assert (Hall : check_range 0 (Z.to_nat 8001)
                   (fun z => float_eqb
                               (range_check rpm_signal (scaled rpm_signal (4 * z)))
                               (f32_of_Z z)) = true) by (vm_compute; reflexivity).
  apply float_eqb_eq. exact (check_range_sound _ _ _ Hall k ltac:(lia)).
Qed.

(** Encoding then decoding the engine speed: the message built for [rpm],
    read back at bit 16 with the descriptor of the engine speed signal
    (factor 0.25, range 0..8000), gives exactly [min rpm 8000] as a
    [float]. *)
Theorem engine_rpm_roundtrip (msg : Can_Message_t) (rpm : Z) :
  0 <= rpm < 65536 ->
  (let* msg' := Can_CreateEngineRpmMessage msg rpm in
   let* raw := Can_ExtractSignal msg' (Sig.start_bit rpm_signal)
                 (Sig.length rpm_signal) false in
   Can_SignalToPhysical raw rpm_signal false)
  = Returns (f32_of_Z (Z.min rpm 8000)).
Proof.
  intros Hr. rewrite create_rpm_is_insert by exact Hr.
  assert (Hwf : wf_msg rpm_header) by reflexivity.
  assert (Hf : field_in_payload 16 16 false) by (unfold field_in_payload; lia).
  pose proof (roundtrip_any_payload rpm_header 16 16 (4 * Z.min rpm 8000) false
                Hwf Hf) as Hrt.
  destruct (Can_InsertSignal rpm_header 16 16 (4 * Z.min rpm 8000) false)
    as [msg'|]; simpl in Hrt |- *.
  - rewrite Hrt by (change (2 ^ 16) with 65536; lia). simpl bind.
    rewrite Can_SignalToPhysical_numeric. simpl. f_equal.
    apply rpm_decode. lia.
  - exfalso. specialize (Hrt ltac:(change (2 ^ 16) with 65536; lia)). discriminate.
Qed.

Lemma engine_rpm_roundtrip_witness :
  0 <= 2500 < 65536 /\
  (let* msg' := Can_CreateEngineRpmMessage zero_msg 2500 in
   let* raw := Can_ExtractSignal msg' (Sig.start_bit rpm_signal)
                 (Sig.length rpm_signal) false in
   Can_SignalToPhysical raw rpm_signal false)
  = Returns (f32_of_Z (Z.min 2500 8000)).
Proof.
  assert (Hr : 0 <= 2500 < 65536) by lia.
  split; [exact Hr|]. exact (engine_rpm_roundtrip zero_msg 2500 Hr).
Defined.

(** ** Motorola insertion *)

Lemma mirror_involutive (p : Z) : mirror (mirror p) = p.
Proof. unfold mirror. Z.div_mod_to_equations. lia. Qed.

Lemma rev8_range (b : Z) : 0 <= rev8 b < 256.
Proof.
  unfold rev8.
  destruct (Z.testbit b 0), (Z.testbit b 1), (Z.testbit b 2), (Z.testbit b 3),
    (Z.testbit b 4), (Z.testbit b 5), (Z.testbit b 6), (Z.testbit b 7);
    simpl; lia.
Qed.

Lemma rev8_payload_bytes (d : list Z) :
  List.length d = 8%nat -> payload_bytes (rev8 <$> d).
Proof.
  intros Hd. split; [rewrite length_fmap; exact Hd|].
  apply Forall_fmap, Forall_forall. intros b _. apply rev8_range.
Qed.

(** Motorola insertion is Intel insertion on bit-reversed bytes: reversing
    the bits of every byte, inserting in Intel order at
    [start_bit - length + 1], and reversing the bits of every byte again
    gives the message that Motorola insertion at [start_bit] returns. *)
Theorem motorola_insert_is_intel_on_reversed_bytes (msg : Can_Message_t)
  (start_bit length value : Z) :
  payload_bytes (Msg.data msg) -> field_in_payload start_bit length true ->
  (let* msg' := Can_InsertSignal (with_data msg (rev8 <$> Msg.data msg))
                  (start_bit - length + 1) length value false in
   Returns (with_data msg' (rev8 <$> Msg.data msg')))
  = Can_InsertSignal msg start_bit length value true.
Proof.
  intros [Hwf Hbytes] Hf. pose proof Hf as [Hl Hs].
  assert (Hf' : field_in_payload (start_bit - length + 1) length false)
    by (unfold field_in_payload; lia).
  assert (Hwfr : wf_msg (with_data msg (rev8 <$> Msg.data msg)))
    by (unfold wf_msg; simpl; rewrite length_fmap; exact Hwf).
  destruct (insert_bits _ (start_bit - length + 1) length value false Hwfr Hf')
    as (m & Hm & Hwfm & Hout & Hin).
  destruct (insert_bits msg start_bit length value true Hwf Hf)
    as (m' & Hm' & Hwfm' & Hout' & Hin').
  rewrite Hm, Hm'. simpl. f_equal.
  rewrite (insert_result_data _ _ _ _ _ _ Hm'), (insert_result_data _ _ _ _ _ _ Hm).
  unfold with_data. simpl. f_equal.
  apply payload_ext;
    [apply rev8_payload_bytes; exact Hwfm
    | split; [exact Hwfm' | exact (insert_bytes _ _ _ _ _ _ Hbytes Hm')] |].
  intros p Hp. rewrite payload_bit_rev8 by lia.
  pose proof (mirror_range p Hp) as Hq.
  destruct (field_position start_bit length true p) as [(j & Hj & Hpj)|Hfree].
  - rewrite Hpj at 2. rewrite Hin' by exact Hj.
    specialize (Hin (length - 1 - j) ltac:(lia)).
    unfold field_index, value_index in Hin, Hpj |- *.
    rewrite Hpj, mirror_involutive.
    replace (start_bit - j) with (start_bit - length + 1 + (length - 1 - j)) by lia.
    exact Hin.
  - rewrite Hout' by assumption. rewrite Hout.
    + simpl. rewrite payload_bit_rev8 by lia. rewrite mirror_involutive. reflexivity.
    + exact Hq.
    + intros j Hj Heq. apply (Hfree (length - 1 - j)); [lia|].
      unfold field_index in Heq |- *. rewrite <- (mirror_involutive p), Heq.
      f_equal. lia.
Qed.

Lemma motorola_insert_is_intel_on_reversed_bytes_witness :
  payload_bytes (Msg.data (with_data zero_msg [0x12; 0x34; 0x56; 0x78; 0x9A; 0xBC; 0xDE; 0xF0])) /\
  field_in_payload 27 13 true /\
  (let* msg' :=
     Can_InsertSignal
       (with_data zero_msg [0x48; 0x2C; 0x6A; 0x1E; 0x59; 0x3D; 0x7B; 0x0F])
       (27 - 13 + 1) 13 0x1ABC false in
   Returns (with_data msg' (rev8 <$> Msg.data msg')))
  = Can_InsertSignal
      (with_data zero_msg [0x12; 0x34; 0x56; 0x78; 0x9A; 0xBC; 0xDE; 0xF0])
      27 13 0x1ABC true.
Proof.
  assert (Hpb : payload_bytes
                  (Msg.data (with_data zero_msg
                               [0x12; 0x34; 0x56; 0x78; 0x9A; 0xBC; 0xDE; 0xF0]))).
  { split; [reflexivity|]. simpl. repeat constructor; lia. }
  assert (Hf : field_in_payload 27 13 true) by (unfold field_in_payload; lia).
  split; [exact Hpb|]. split; [exact Hf|].
  exact (motorola_insert_is_intel_on_reversed_bytes _ 27 13 0x1ABC Hpb Hf).
Defined.
